(** * mc4sv: an IPv4 multicast receiver (mc4sv.c)

    A shallow embedding of [mc4sv.c] and the properties of its
    specification.  The C program is sequential glue around libc and the
    kernel, so the embedding threads an explicit process state (standard
    output, error stream, [errno], the trace of library and system calls)
    through a small state-and-exit monad, and takes the answers of libc
    and of the kernel from a [world] record. *)

From Stdlib Require Import ZArith List String Ascii Bool Lia DecimalString.
Import ListNotations.
Open Scope string_scope.
Open Scope list_scope.
Open Scope Z_scope.

Notation "a +++ b" := (String.append a b)
  (at level 60, right associativity) : string_scope.

(** ** The C library, as far as the program uses it *)

Module Libc.

Definition nl : string := String (ascii_of_nat 10) EmptyString.

(** What [printf] writes for [%u] and [%zu], given the value the
    argument has after conversion to the unsigned type. *)
Definition decimal (z : Z) : string :=
  NilZero.string_of_uint (N.to_uint (Z.to_N z)).

Definition isspace (c : ascii) : bool :=
  let n := nat_of_ascii c in
  (Nat.eqb n 32 || (Nat.leb 9 n && Nat.leb n 13))%bool.

Definition digit (c : ascii) : option Z :=
  let n := nat_of_ascii c in
  if (Nat.leb 48 n && Nat.leb n 57)%bool then Some (Z.of_nat n - 48) else None.

Fixpoint skip_space (s : string) : string :=
  match s with
  | String c r => if isspace c then skip_space r else s
  | EmptyString => s
  end.

Fixpoint digits (acc : Z) (s : string) : Z :=
  match s with
  | String c r =>
      match digit c with
      | Some d => digits (acc * 10 + d) r
      | None => acc
      end
  | EmptyString => acc
  end.

(** [atoi]: leading white space, an optional sign, then the longest run
    of decimal digits; no digits give 0.  The value is the mathematical
    one: C defines the result only when it fits in [int]
    (see [fits_int]). *)
Definition atoi (s : string) : Z :=
  match skip_space s with
  | String "-"%char r => - digits 0 r
  | String "+"%char r => digits 0 r
  | t => digits 0 t
  end.

Definition INT_MAX : Z := 2147483647.
Definition INT_MIN : Z := -2147483648.

Definition fits_int (z : Z) : bool := (INT_MIN <=? z) && (z <=? INT_MAX).

Definition strlen (s : string) : nat := String.length s.

(** [strcmp]: zero when the strings are equal, else the difference of
    the first two bytes that differ (a missing byte is the final NUL). *)
Fixpoint strcmp (a b : string) : Z :=
  match a, b with
  | EmptyString, EmptyString => 0
  | EmptyString, String d _ => - Z.of_nat (nat_of_ascii d)
  | String c _, EmptyString => Z.of_nat (nat_of_ascii c)
  | String c a', String d b' =>
      if Ascii.eqb c d then strcmp a' b'
      else Z.of_nat (nat_of_ascii c) - Z.of_nat (nat_of_ascii d)
  end.

(** An IPv4 address is kept as its 32-bit value, 224.0.0.1 being
    [0xE0000001]; [inet_ntoa] prints its four bytes, most significant
    first. *)
Definition in_addr := Z.

Definition octet (a : in_addr) (i : Z) : Z := Z.land (Z.shiftr a (8 * i)) 255.

Definition inet_ntoa (a : in_addr) : string :=
  decimal (octet a 3) +++ "." +++ decimal (octet a 2) +++ "." +++
  decimal (octet a 1) +++ "." +++ decimal (octet a 0).

Definition INADDR_ANY : in_addr := 0.
Definition AF_INET : Z := 2.

End Libc.

(** ** The platform *)

(** What the C sources leave to the platform: the width of [size_t], the
    byte order of the host and [IFNAMSIZ] of [<net/if.h>]. *)
Record platform := {
  size_bits : Z;
  little_endian : bool;
  IFNAMSIZ : nat
}.

Definition lp64_le : platform :=
  {| size_bits := 64; little_endian := true; IFNAMSIZ := 16 |}.

Definition lp64_be : platform :=
  {| size_bits := 64; little_endian := false; IFNAMSIZ := 16 |}.

(** Conversion to [size_t]: reduction modulo [2 ^ size_bits]. *)
Definition to_size_t (pf : platform) (z : Z) : Z := z mod 2 ^ size_bits pf.

Definition swap16 (x : Z) : Z :=
  Z.lor (Z.shiftl (Z.land x 255) 8) (Z.land (Z.shiftr x 8) 255).

(** [htons] and [ntohs] are the same function: the identity on a
    big-endian host, a swap of the two bytes on a little-endian one. *)
Definition htons (pf : platform) (x : Z) : Z :=
  if little_endian pf then swap16 x else x.

Definition ntohs (pf : platform) (x : Z) : Z := htons pf x.

(** ** Data of the program and of its environment *)

Inductive signal := SIGALRM | SIGINT.

(** [struct sockaddr_in]; [get_inaddr] reads the family of a
    [struct sockaddr] through the same first field. *)
Record sockaddr_in := {
  sa_family : Z;
  sin_port : Z;
  sin_addr : Libc.in_addr
}.

Record ifaddrs := {
  ifa_name : string;
  ifa_addr : option sockaddr_in   (* [None] is a NULL [ifa_addr] *)
}.

Record ip_mreq := {
  imr_multiaddr : Libc.in_addr;
  imr_interface : Libc.in_addr
}.

Record addrinfo := {
  ai_family : Z;
  ai_socktype : Z;
  ai_protocol : Z;
  ai_addr : sockaddr_in
}.

(** One entry of the list [getaddrinfo] returns, with what the kernel
    answers when the program tries it: [inl fd] is the descriptor
    [socket] returns (never negative), [inr e] is a return of -1 with
    [errno] set to [e];
    [bind] and [setsockopt] return 0 ([None]) or -1 with [errno]. *)
Record candidate := {
  ai : addrinfo;
  k_socket : nat + string;
  k_bind : option string;
  k_setsockopt : option string
}.

(** One return of [getopt(argc, argv, "i:qt:")] other than -1: the
    option character, [optarg], and what [getopt] itself wrote to the
    error stream during the call. *)
Record getopt_ret := {
  go_ch : ascii;
  go_optarg : string;
  go_diag : string
}.

(** One call of [recvfrom] that returns: a datagram of [len] payload
    bytes from [src:port], or a failure with [errno]. *)
Inductive recv_event :=
| Datagram (src : Libc.in_addr) (port : Z) (len : Z)
| RecvError (e : string).

(** Library and system calls, in the order the program makes them. *)
Inductive call :=
| c_inet_aton (cp : string)
| c_getifaddrs
| c_freeifaddrs
| c_getaddrinfo (service : string)
| c_freeaddrinfo
| c_socket (a : addrinfo) (r : Z)
| c_bind (fd : Z) (a : sockaddr_in)
| c_setsockopt (fd : Z) (imr : ip_mreq)
| c_close (fd : Z)
| c_sigaction (sig : signal)
| c_setitimer (tv_sec : Z)
| c_recvfrom (fd : Z).

(** Everything the program gets from outside. *)
Record world := {
  w_progname : string;                       (* [getprogname()] of err(3) *)
  w_getopt : list getopt_ret;                (* returns of [getopt] before -1 *)
  w_operands : list string;                  (* [argv] after [optind] *)
  w_inet_aton : string -> option Libc.in_addr;  (* [None]: returns 0 *)
  w_getifaddrs : list ifaddrs + string;
  w_getaddrinfo : string -> list candidate + string;  (* [inr]: [gai_strerror] *)
  w_sigaction : signal -> option string;
  w_setitimer : Z -> option string;
  w_stack_sin : sockaddr_in;                 (* [sin] before the first receive *)
  w_recv : list recv_event;                  (* receives before the signal *)
  w_signal : signal;                         (* the signal that ends the loop *)
  w_at_quit : Z * Z -> Z * Z                 (* [packets] and [sumsize] after
                                                the jump, from those the loop
                                                left *)
}.

(** ** Process state and the monad of the program *)

Record proc := {
  p_stdout : string;
  p_stderr : string;
  p_errno : string;
  p_calls : list call
}.

Definition proc0 : proc :=
  {| p_stdout := ""; p_stderr := ""; p_errno := ""; p_calls := [] |}.

(** How a computation stops early: [exit(status)], or behaviour that C
    leaves undefined. *)
Inductive abort := Exited (status : Z) | Undefined.

Definition M (A : Type) : Type := proc -> (A + abort) * proc.

Definition ret {A} (a : A) : M A := fun p => (inl a, p).

Definition bind {A B} (m : M A) (f : A -> M B) : M B :=
  fun p => match m p with
           | (inl a, p') => f a p'
           | (inr e, p') => (inr e, p')
           end.

Notation "x <- m ;; k" := (bind m (fun x => k))
  (at level 61, m at next level, right associativity).
Notation "m ;; k" := (bind m (fun _ => k))
  (at level 61, right associativity).

Definition exit {A} (status : Z) : M A := fun p => (inr (Exited status), p).

Definition undefined {A} : M A := fun p => (inr Undefined, p).

(** The four ways the program changes the state of its process. *)
Definition wrote (s : string) (p : proc) : proc :=
  {| p_stdout := p_stdout p +++ s; p_stderr := p_stderr p;
     p_errno := p_errno p; p_calls := p_calls p |}.

Definition complained (s : string) (p : proc) : proc :=
  {| p_stdout := p_stdout p; p_stderr := p_stderr p +++ s;
     p_errno := p_errno p; p_calls := p_calls p |}.

Definition failed_with (e : string) (p : proc) : proc :=
  {| p_stdout := p_stdout p; p_stderr := p_stderr p;
     p_errno := e; p_calls := p_calls p |}.

Definition did (c : call) (p : proc) : proc :=
  {| p_stdout := p_stdout p; p_stderr := p_stderr p;
     p_errno := p_errno p; p_calls := p_calls p ++ [c] |}.

Definition printf (s : string) : M unit := fun p => (inl tt, wrote s p).

Definition eprintf (s : string) : M unit := fun p => (inl tt, complained s p).

Definition set_errno (e : string) : M unit := fun p => (inl tt, failed_with e p).

Definition get_errno : M string := fun p => (inl (p_errno p), p).

Definition called (c : call) : M unit := fun p => (inl tt, did c p).

(** ** The program *)

Definition BUFFERSIZE : Z := 2048.

Record options := {
  ifname : string;
  quiet : bool;
  timeout : Z
}.

(** The locals of the receive loop. *)
Record counters := {
  packets : Z;
  sumsize : Z;
  sin : sockaddr_in
}.

Definition defaults : options :=
  {| ifname := ""; quiet := false; timeout := 0 |}.

(** The line [usage] writes. *)
Definition usage_text : string :=
  "mc4sv [-i interface] [-q] [-t timeout] [mcast-group [service]]" +++ Libc.nl.

(** What a signal handler does to the control flow. *)
Inductive control := siglongjmp (val : Z).

(** The value [sigsetjmp] returns when control comes back through a
    jump: never 0. *)
Definition sigsetjmp_again (c : control) : Z :=
  match c with siglongjmp val => if val =? 0 then 1 else val end.

(** Handler of both SIGALRM and SIGINT. *)
Definition alarm_handler (sig : signal) : control := siglongjmp 1.

Section Program.

Variable pf : platform.
Variable w : world.

(** *** err(3) and [usage] *)

(** What [errx] writes: the program name, the message, a new line. *)
Definition errx_text (msg : string) : string :=
  w_progname w +++ ": " +++ msg +++ Libc.nl.

Definition errx {A} (status : Z) (msg : string) : M A :=
  eprintf (errx_text msg) ;;
  exit status.

(** What [err] writes: as [errx], with the text of [errno] added. *)
Definition err_text (msg e : string) : string :=
  w_progname w +++ ": " +++ msg +++ ": " +++ e +++ Libc.nl.

Definition err {A} (status : Z) (msg : string) : M A :=
  e <- get_errno ;;
  eprintf (err_text msg e) ;;
  exit status.

Definition usage {A} : M A :=
  eprintf usage_text ;;
  exit 1.

(** *** Options and operands *)

(** The body of the [getopt] loop, for one return of [getopt]: first
    what [getopt] wrote during the call, then the [switch]. *)
Definition option_case (o : getopt_ret) (c : options) : M options :=
  eprintf (go_diag o) ;;
  let optarg := go_optarg o in
  if Ascii.eqb (go_ch o) "i" then
    if (IFNAMSIZ pf <=? Libc.strlen optarg)%nat then
      errx 1 (optarg +++ ": interface name too long")
    else
      ret {| ifname := optarg; quiet := quiet c; timeout := timeout c |}
  else if Ascii.eqb (go_ch o) "q" then
    ret {| ifname := ifname c; quiet := true; timeout := timeout c |}
  else if Ascii.eqb (go_ch o) "t" then
    if Libc.fits_int (Libc.atoi optarg) then
      let t := Libc.atoi optarg in
      if 3600 <? t then
        errx 1 (optarg +++ ": invalid timeout (>3600)")
      else
        ret {| ifname := ifname c; quiet := quiet c; timeout := t |}
    else undefined
  else usage.

Fixpoint option_loop (os : list getopt_ret) (c : options) : M options :=
  match os with
  | [] => ret c
  | o :: os' => c' <- option_case o c ;; option_loop os' c'
  end.

(** The [switch (argc)] on the operands: the group and the service. *)
Definition operand_switch (args : list string) : M (string * string) :=
  match args with
  | [] => ret ("224.0.0.1", "discard")
  | [m] => ret (m, "discard")
  | [m; s] => ret (m, s)
  | _ => usage
  end.

(** Everything [main] does before it first looks at an address. *)
Definition configure : M (options * (string * string)) :=
  c <- option_loop (w_getopt w) defaults ;;
  ms <- operand_switch (w_operands w) ;;
  ret (c, ms).

(** *** [get_inaddr] *)

(** The loop of [get_inaddr]: the entry at which it breaks, with the
    address the entry carries. *)
Fixpoint ifa_loop (name : string) (l : list ifaddrs)
  : option (ifaddrs * sockaddr_in) :=
  match l with
  | [] => None
  | ifa :: rest =>
      match ifa_addr ifa with
      | None => ifa_loop name rest
      | Some sa =>
          if negb (sa_family sa =? Libc.AF_INET) then ifa_loop name rest
          else if Libc.strcmp name (ifa_name ifa) =? 0 then Some (ifa, sa)
          else ifa_loop name rest
      end
  end.

Definition get_inaddr (name : string) : M Libc.in_addr :=
  called c_getifaddrs ;;
  match w_getifaddrs w with
  | inr e => set_errno e ;; err 1 "getifaddrs"
  | inl res =>
      match ifa_loop name res with
      | None => errx 1 (name +++ ": interface does not exist or is invalid")
      | Some (_, sa) => called c_freeifaddrs ;; ret (sin_addr sa)
      end
  end.

(** *** Opening the socket and joining the group *)

Definition socket (c : candidate) : M Z :=
  match k_socket c with
  | inl fd => called (c_socket (ai c) (Z.of_nat fd)) ;; ret (Z.of_nat fd)
  | inr e => called (c_socket (ai c) (-1)) ;; set_errno e ;; ret (-1)
  end.

Definition sys_bind (fd : Z) (c : candidate) : M Z :=
  called (c_bind fd (ai_addr (ai c))) ;;
  match k_bind c with
  | None => ret 0
  | Some e => set_errno e ;; ret (-1)
  end.

Definition setsockopt (fd : Z) (imr : ip_mreq) (c : candidate) : M Z :=
  called (c_setsockopt fd imr) ;;
  match k_setsockopt c with
  | None => ret 0
  | Some e => set_errno e ;; ret (-1)
  end.

Definition close (fd : Z) : M unit := called (c_close fd).

(** The [for (ai = res; ai != NULL; ai = ai->ai_next)] loop.  It returns
    [ai] (here: whether it is non-NULL, with [fd]) and [cause], which is
    [None] as long as the program has not assigned it. *)
Fixpoint candidate_loop (imr : ip_mreq) (res : list candidate)
    (cause : option string) : M (option Z * option string) :=
  match res with
  | [] => ret (None, cause)
  | c :: rest =>
      fd <- socket c ;;
      if fd =? -1 then candidate_loop imr rest (Some "socket")
      else
        r <- sys_bind fd c ;;
        if r =? -1 then
          close fd ;; candidate_loop imr rest (Some "bind")
        else
          r <- setsockopt fd imr c ;;
          if r =? -1 then
            close fd ;; candidate_loop imr rest (Some "IP_ADD_MEMBERSHIP")
          else ret (Some fd, cause)
  end.

(** The loop with the test that follows it. *)
Definition group_socket (imr : ip_mreq) (res : list candidate) : M Z :=
  r <- candidate_loop imr res None ;;
  match r with
  | (Some fd, _) => called c_freeaddrinfo ;; ret fd
  | (None, Some cause) => err 1 cause
  | (None, None) => undefined
  end.

(** *** Signals and the timer *)

Definition sigaction (sig : signal) : M Z :=
  called (c_sigaction sig) ;;
  match w_sigaction w sig with
  | None => ret 0
  | Some e => set_errno e ;; ret (-1)
  end.

Definition setitimer (tv_sec : Z) : M Z :=
  called (c_setitimer tv_sec) ;;
  match w_setitimer w tv_sec with
  | None => ret 0
  | Some e => set_errno e ;; ret (-1)
  end.

(** *** The receive loop *)

(** What a call of [recvfrom] on the UDP socket with a buffer of
    [buflen] bytes and no flags gives back: the number of bytes stored,
    the excess of a longer datagram being discarded, and the sender in
    [sin], its port in network byte order; or -1, [sin] left alone. *)
Definition recvfrom_result (buflen : Z) (ev : recv_event) (old : sockaddr_in)
  : Z * sockaddr_in :=
  match ev with
  | Datagram src port len =>
      (Z.min len buflen,
       {| sa_family := Libc.AF_INET; sin_port := htons pf port;
          sin_addr := src |})
  | RecvError _ => (-1, old)
  end.

Definition recvfrom (fd : Z) (buflen : Z) (ev : recv_event)
    (old : sockaddr_in) : M (Z * sockaddr_in) :=
  called (c_recvfrom fd) ;;
  match ev with
  | RecvError e => set_errno e
  | _ => ret tt
  end ;;
  ret (recvfrom_result buflen ev old).

(** [printf("received from %s:%u (%zu)\n", inet_ntoa(sin.sin_addr),
    sin.sin_port, (size_t)received)] *)
Definition packet_line (from : sockaddr_in) (received : Z) : string :=
  "received from " +++ Libc.inet_ntoa (sin_addr from) +++ ":" +++
  Libc.decimal (sin_port from) +++ " (" +++
  Libc.decimal (to_size_t pf received) +++ ")" +++ Libc.nl.

(** The new values of the locals after one turn of the loop. *)
Definition count (st : counters) (r : Z * sockaddr_in) : counters :=
  {| packets := to_size_t pf (packets st + 1);
     sumsize := to_size_t pf (sumsize st + to_size_t pf (fst r));
     sin := snd r |}.

(** One turn of [for (;;)]. *)
Definition loop_body (q : bool) (fd : Z) (ev : recv_event) (st : counters)
  : M counters :=
  r <- recvfrom fd BUFFERSIZE ev (sin st) ;;
  let st' := count st r in
  (if negb q then printf (packet_line (sin st') (fst r)) else ret tt) ;;
  ret st'.

(** The turns of the loop that complete before the signal arrives. *)
Fixpoint receive_loop (q : bool) (fd : Z) (evs : list recv_event)
    (st : counters) : M counters :=
  match evs with
  | [] => ret st
  | ev :: evs' => st' <- loop_body q fd ev st ;; receive_loop q fd evs' st'
  end.

(** [printf("\n%zu packets (%zu byte) received.\n", packets, sumsize)] *)
Definition summary_line (st : counters) : string :=
  Libc.nl +++ Libc.decimal (packets st) +++ " packets (" +++
  Libc.decimal (sumsize st) +++ " byte) received." +++ Libc.nl.

(** *** [main] *)

(** The locals at [quit].  [packets] and [sumsize] are not volatile and
    are changed between [sigsetjmp] and the jump, so that their values
    after the jump are indeterminate: whatever [size_t] values the
    implementation leaves there, which the world supplies from the
    values the loop left. *)
Definition quit_counters (st : counters) : counters :=
  let v := w_at_quit w (packets st, sumsize st) in
  {| packets := to_size_t pf (fst v); sumsize := to_size_t pf (snd v);
     sin := sin st |}.

(** From [sigaction] to the end.  [sigsetjmp] first returns 0, and the
    program arms the timer and enters the loop.  After the turns that
    complete, the program calls [recvfrom] once more and the signal is
    taken to arrive while it is blocked there; the handler jumps back to
    [sigsetjmp], which now returns a value that is not 0, so control
    goes to [quit]. *)
Definition session (c : options) (fd : Z) : M Z :=
  r <- sigaction SIGALRM ;;
  if r =? -1 then err 1 "sigaction: SIGALRM" else
  r <- sigaction SIGINT ;;
  if r =? -1 then err 1 "sigaction: SIGINT" else
  (* sigsetjmp(env, 1) returns 0 *)
  r <- setitimer (timeout c) ;;
  if r =? -1 then err 1 "setitimer" else
  st <- receive_loop (quiet c) fd (w_recv w)
          {| packets := 0; sumsize := 0; sin := w_stack_sin w |} ;;
  (* the call of recvfrom that the signal interrupts *)
  called (c_recvfrom fd) ;;
  (* the handler runs; sigsetjmp(env, 1) != 0 *)
  if sigsetjmp_again (alarm_handler (w_signal w)) =? 0 then undefined else
  (* quit: *)
  printf (summary_line (quit_counters st)) ;;
  close fd ;;
  ret 0.

(** The test of the group argument. *)
Definition group_address (mcast : string) : M Libc.in_addr :=
  called (c_inet_aton mcast) ;;
  match w_inet_aton w mcast with
  | None => errx 1 (mcast +++ ": invalid multicast group")
  | Some group => ret group
  end.

(** From the choice of the interface to the end; [htonl(INADDR_ANY)] is
    [INADDR_ANY] in either byte order.  The hints given to [getaddrinfo]
    (AF_INET, SOCK_DGRAM, AI_PASSIVE) are part of what the world
    answers. *)
Definition join_and_receive (c : options) (service : string)
    (group : Libc.in_addr) : M Z :=
  interface <-
    (if negb (String.eqb (ifname c) "") then get_inaddr (ifname c)
     else ret Libc.INADDR_ANY) ;;
  let imr := {| imr_multiaddr := group; imr_interface := interface |} in
  called (c_getaddrinfo service) ;;
  match w_getaddrinfo w service with
  | inr e => errx 1 e
  | inl res =>
      fd <- group_socket imr res ;;
      session c fd
  end.

Definition main : M Z :=
  cfg <- configure ;;
  let c := fst cfg in
  let mcast := fst (snd cfg) in
  let service := snd (snd cfg) in
  group <- group_address mcast ;;
  join_and_receive c service group.

End Program.

(** The exit status of the process and its final state: [main] returns
    its status, or [exit] was called; [None] when the run went through
    undefined behaviour. *)
Definition run (pf : platform) (w : world) : option Z * proc :=
  match main pf w proc0 with
  | (inl status, p) => (Some status, p)
  | (inr (Exited status), p) => (Some status, p)
  | (inr Undefined, p) => (None, p)
  end.

(** Descriptors a trace of calls leaves open. *)
Fixpoint open_fds (cs : list call) (acc : list Z) : list Z :=
  match cs with
  | [] => acc
  | c_socket _ fd :: cs' =>
      if fd =? -1 then open_fds cs' acc else open_fds cs' (acc ++ [fd])
  | c_close fd :: cs' => open_fds cs' (remove Z.eq_dec fd acc)
  | _ :: cs' => open_fds cs' acc
  end.

(** ** A world to run the program in *)

Definition any4 (port : Z) : addrinfo :=
  {| ai_family := Libc.AF_INET; ai_socktype := 2; ai_protocol := 17;
     ai_addr := {| sa_family := Libc.AF_INET; sin_port := port;
                   sin_addr := Libc.INADDR_ANY |} |}.

Definition dotted (a b c d : Z) : Libc.in_addr :=
  Z.lor (Z.shiftl a 24) (Z.lor (Z.shiftl b 16) (Z.lor (Z.shiftl c 8) d)).

(** A host with interfaces [lo] and [eth0], where every call succeeds;
    the group argument is accepted when it is one of three spellings,
    and the build keeps the counters of the loop across the jump. *)
Definition quiet_host : world :=
  {| w_progname := "mc4sv";
     w_getopt := [];
     w_operands := [];
     w_inet_aton := fun s =>
       if String.eqb s "224.0.0.1" then Some (dotted 224 0 0 1)
       else if String.eqb s "10.1.2.3" then Some (dotted 10 1 2 3)
       else if String.eqb s "0xe0000001" then Some (dotted 224 0 0 1)
       else None;
     w_getifaddrs := inl
       [ {| ifa_name := "lo"; ifa_addr := None |};
         {| ifa_name := "lo";
            ifa_addr := Some {| sa_family := Libc.AF_INET; sin_port := 0;
                                sin_addr := dotted 127 0 0 1 |} |};
         {| ifa_name := "eth0";
            ifa_addr := Some {| sa_family := 17; sin_port := 0;
                                sin_addr := 0 |} |};
         {| ifa_name := "eth0";
            ifa_addr := Some {| sa_family := Libc.AF_INET; sin_port := 0;
                                sin_addr := dotted 192 0 2 7 |} |} ];
     w_getaddrinfo := fun _ =>
       inl [ {| ai := any4 9; k_socket := inl 3%nat; k_bind := None;
                k_setsockopt := None |} ];
     w_sigaction := fun _ => None;
     w_setitimer := fun _ => None;
     w_stack_sin := {| sa_family := 0; sin_port := 0; sin_addr := 0 |};
     w_recv := [];
     w_signal := SIGINT;
     w_at_quit := fun v => v |}.

Definition with_args (w : world) (os : list getopt_ret) (args : list string)
  : world :=
  {| w_progname := w_progname w; w_getopt := os; w_operands := args;
     w_inet_aton := w_inet_aton w; w_getifaddrs := w_getifaddrs w;
     w_getaddrinfo := w_getaddrinfo w; w_sigaction := w_sigaction w;
     w_setitimer := w_setitimer w; w_stack_sin := w_stack_sin w;
     w_recv := w_recv w; w_signal := w_signal w;
     w_at_quit := w_at_quit w |}.

Definition with_recv (w : world) (evs : list recv_event) (sig : signal)
  : world :=
  {| w_progname := w_progname w; w_getopt := w_getopt w;
     w_operands := w_operands w;
     w_inet_aton := w_inet_aton w; w_getifaddrs := w_getifaddrs w;
     w_getaddrinfo := w_getaddrinfo w; w_sigaction := w_sigaction w;
     w_setitimer := w_setitimer w; w_stack_sin := w_stack_sin w;
     w_recv := evs; w_signal := sig; w_at_quit := w_at_quit w |}.

Definition with_candidates (w : world) (res : list candidate) : world :=
  {| w_progname := w_progname w; w_getopt := w_getopt w;
     w_operands := w_operands w;
     w_inet_aton := w_inet_aton w; w_getifaddrs := w_getifaddrs w;
     w_getaddrinfo := fun _ => inl res; w_sigaction := w_sigaction w;
     w_setitimer := w_setitimer w; w_stack_sin := w_stack_sin w;
     w_recv := w_recv w; w_signal := w_signal w;
     w_at_quit := w_at_quit w |}.

Definition opt (ch : ascii) (optarg : string) : getopt_ret :=
  {| go_ch := ch; go_optarg := optarg; go_diag := "" |}.


(** * Vocabulary of the properties *)

(** A string of the model stands for a C string when it holds no NUL. *)
Definition c_string (s : string) : bool :=
  forallb (fun c => negb (Nat.eqb (nat_of_ascii c) 0))
    (list_ascii_of_string s).

(** The IPv4 address an entry of the interface list carries, if any. *)
Definition ipv4_of (ifa : ifaddrs) : option Libc.in_addr :=
  match ifa_addr ifa with
  | Some sa => if sa_family sa =? Libc.AF_INET then Some (sin_addr sa) else None
  | None => None
  end.

(** The ways one return of [getopt] makes the program give up, each with
    the text the program then writes to the error stream. *)
Inductive option_failure (pf : platform) (w : world) (o : getopt_ret)
  : string -> Prop :=
| unknown_option :
    go_ch o <> "i"%char -> go_ch o <> "q"%char -> go_ch o <> "t"%char ->
    option_failure pf w o usage_text
| long_ifname :
    go_ch o = "i"%char ->
    (IFNAMSIZ pf <= Libc.strlen (go_optarg o))%nat ->
    option_failure pf w o
      (errx_text w (go_optarg o +++ ": interface name too long"))
| large_timeout :
    go_ch o = "t"%char ->
    3600 < Libc.atoi (go_optarg o) ->
    option_failure pf w o
      (errx_text w (go_optarg o +++ ": invalid timeout (>3600)")).

(** The usage errors of a command line. *)
Inductive usage_error (pf : platform) (w : world) : string -> Prop :=
| in_option o msg :
    In o (w_getopt w) -> option_failure pf w o msg -> usage_error pf w msg
| in_operands :
    (2 < List.length (w_operands w))%nat -> usage_error pf w usage_text.

(** The [-t] arguments on which [atoi] is defined. *)
Definition timeouts_fit (os : list getopt_ret) : Prop :=
  forall o, In o os -> go_ch o = "t"%char ->
            Libc.fits_int (Libc.atoi (go_optarg o)) = true.

(** Whether [u] occurs in [s]. *)
Fixpoint occurs (u s : string) : bool :=
  (String.prefix u s ||
   match s with
   | String _ r => occurs u r
   | EmptyString => false
   end)%bool.

(** What [recvfrom] returns for an event. *)
Definition returned (ev : recv_event) : Z :=
  match ev with
  | Datagram _ _ len => Z.min len BUFFERSIZE
  | RecvError _ => -1
  end.

(** The length of the payload of a datagram. *)
Definition payload (ev : recv_event) : Z :=
  match ev with
  | Datagram _ _ len => len
  | RecvError _ => 0
  end.

(** The event is a datagram (of a length that is not negative). *)
Definition arrived (ev : recv_event) : Prop :=
  match ev with
  | Datagram _ _ len => 0 <= len
  | RecvError _ => False
  end.

Definition Zsum (l : list Z) : Z := fold_right Z.add 0 l.

(** The locals after one turn, and after the turns for a list of
    events. *)
Definition turn (pf : platform) (st : counters) (ev : recv_event) : counters :=
  count pf st (recvfrom_result pf BUFFERSIZE ev (sin st)).

Definition tally (pf : platform) (evs : list recv_event) (st : counters)
  : counters :=
  fold_left (turn pf) evs st.

(** The operation at which the program gives a candidate up, with the
    [errno] of that operation; [None] when all three succeed. *)
Definition failure (c : candidate) : option (string * string) :=
  match k_socket c with
  | inr e => Some ("socket", e)
  | inl _ =>
      match k_bind c with
      | Some e => Some ("bind", e)
      | None =>
          match k_setsockopt c with
          | Some e => Some ("IP_ADD_MEMBERSHIP", e)
          | None => None
          end
      end
  end.

(** The calls the program is to make for one candidate. *)
Definition attempt_calls (imr : ip_mreq) (c : candidate) : list call :=
  match k_socket c with
  | inr _ => [c_socket (ai c) (-1)]
  | inl n =>
      let fd := Z.of_nat n in
      c_socket (ai c) fd :: c_bind fd (ai_addr (ai c)) ::
      match k_bind c with
      | Some _ => [c_close fd]
      | None =>
          c_setsockopt fd imr ::
          match k_setsockopt c with
          | Some _ => [c_close fd]
          | None => []
          end
      end
  end.

(** The process after these calls. *)
Definition tried (imr : ip_mreq) (p : proc) (c : candidate) : proc :=
  {| p_stdout := p_stdout p; p_stderr := p_stderr p;
     p_errno := match failure c with Some (_, e) => e | None => p_errno p end;
     p_calls := p_calls p ++ attempt_calls imr c |}.

Definition caused (cause : option string) (c : candidate) : option string :=
  match failure c with Some (op, _) => Some op | None => cause end.

Definition fails (c : candidate) : Prop := failure c <> None.

Definition refused : candidate :=
  {| ai := any4 9; k_socket := inr "EMFILE"; k_bind := None;
     k_setsockopt := None |}.

Definition in_use : candidate :=
  {| ai := any4 9; k_socket := inl 3%nat; k_bind := Some "EADDRINUSE";
     k_setsockopt := None |}.

Definition joined : candidate :=
  {| ai := any4 9; k_socket := inl 3%nat; k_bind := None;
     k_setsockopt := None |}.

(** The lines the loop prints, when it is not quiet, for a list of
    events, the locals being [st] at the start. *)
Fixpoint packet_log (pf : platform) (evs : list recv_event) (st : counters)
  : string :=
  match evs with
  | [] => ""
  | ev :: evs' =>
      let r := recvfrom_result pf BUFFERSIZE ev (sin st) in
      packet_line pf (snd r) (fst r) +++ packet_log pf evs' (turn pf st ev)
  end.

(** [errno] after the receives of a list of events. *)
Definition errno_after (evs : list recv_event) (e0 : string) : string :=
  fold_left (fun e ev => match ev with RecvError e' => e' | _ => e end)
    evs e0.

(** The first of the three calls before the loop that fails, as [err]
    names it, with its [errno]. *)
Definition setup_failure (w : world) (c : options) : option (string * string) :=
  match w_sigaction w SIGALRM with
  | Some e => Some ("sigaction: SIGALRM", e)
  | None =>
      match w_sigaction w SIGINT with
      | Some e => Some ("sigaction: SIGINT", e)
      | None =>
          match w_setitimer w (timeout c) with
          | Some e => Some ("setitimer", e)
          | None => None
          end
      end
  end.

(** The argument of the last option [ch] among returns of [getopt]. *)
Fixpoint last_optarg (ch : ascii) (os : list getopt_ret) : option string :=
  match os with
  | [] => None
  | o :: os' =>
      match last_optarg ch os' with
      | Some a => Some a
      | None => if Ascii.eqb (go_ch o) ch then Some (go_optarg o) else None
      end
  end.

(** The candidates the loop gets to: those up to the first that
    succeeds. *)
Fixpoint tried_candidates (res : list candidate) : list candidate :=
  match res with
  | [] => []
  | c :: rest =>
      match failure c with
      | None => [c]
      | Some _ => c :: tried_candidates rest
      end
  end.

(** A step of the program that writes nothing to standard output and,
    when it ends the process, does so with status 1 and a message on the
    error stream. *)
Definition silent {A} (m : M A) : Prop :=
  forall p, p_stdout p = "" ->
    match m p with
    | (inl _, p') => p_stdout p' = ""
    | (inr (Exited s), p') => s = 1 /\ p_stdout p' = "" /\ p_stderr p' <> ""
    | (inr Undefined, p') => p_stdout p' = ""
    end.

(** A step that ends the program: with status 0 after the summary, or
    like a [silent] step. *)
Definition reporting (m : M Z) : Prop :=
  forall p, p_stdout p = "" ->
    match m p with
    | (inl s, p') =>
        s = 0 /\ exists log st, p_stdout p' = log +++ summary_line st
    | (inr (Exited s), p') => s = 1 /\ p_stdout p' = "" /\ p_stderr p' <> ""
    | (inr Undefined, p') => p_stdout p' = ""
    end.

(** The number of new-line characters in a string: the number of lines
    of an output that ends with a new line. *)
Fixpoint newlines (s : string) : nat :=
  match s with
  | EmptyString => 0%nat
  | String c r =>
      ((if Ascii.eqb c (ascii_of_nat 10) then 1 else 0) + newlines r)%nat
  end.

(** [quiet_host] with a kernel that refuses a negative timer value. *)
Definition strict_timer_host : world :=
  {| w_progname := w_progname quiet_host; w_getopt := w_getopt quiet_host;
     w_operands := w_operands quiet_host;
     w_inet_aton := w_inet_aton quiet_host;
     w_getifaddrs := w_getifaddrs quiet_host;
     w_getaddrinfo := w_getaddrinfo quiet_host;
     w_sigaction := w_sigaction quiet_host;
     w_setitimer := fun t => if t <? 0 then Some "EINVAL" else None;
     w_stack_sin := w_stack_sin quiet_host;
     w_recv := w_recv quiet_host; w_signal := w_signal quiet_host;
     w_at_quit := w_at_quit quiet_host |}.

(** The text of a packet line, without its new line, and the texts of
    the lines for a list of events. *)
Definition packet_text (pf : platform) (from : sockaddr_in) (received : Z)
  : string :=
  "received from " +++ Libc.inet_ntoa (sin_addr from) +++ ":" +++
  Libc.decimal (sin_port from) +++ " (" +++
  Libc.decimal (to_size_t pf received) +++ ")".

Fixpoint packet_texts (pf : platform) (evs : list recv_event) (st : counters)
  : list string :=
  match evs with
  | [] => []
  | ev :: evs' =>
      let r := recvfrom_result pf BUFFERSIZE ev (sin st) in
      packet_text pf (snd r) (fst r) :: packet_texts pf evs' (turn pf st ev)
  end.

(** Lines, each followed by a new line. *)
Fixpoint terminated_lines (ls : list string) : string :=
  match ls with
  | [] => ""
  | l :: ls' => l +++ Libc.nl +++ terminated_lines ls'
  end.

(** What [getopt] itself wrote for a list of its returns. *)
Fixpoint diag_text (os : list getopt_ret) : string :=
  match os with
  | [] => ""
  | o :: os' => go_diag o +++ diag_text os'
  end.

(** A world in which [getifaddrs] answers [r]. *)
Definition with_getifaddrs (w : world) (r : list ifaddrs + string) : world :=
  {| w_progname := w_progname w; w_getopt := w_getopt w;
     w_operands := w_operands w;
     w_inet_aton := w_inet_aton w; w_getifaddrs := r;
     w_getaddrinfo := w_getaddrinfo w; w_sigaction := w_sigaction w;
     w_setitimer := w_setitimer w; w_stack_sin := w_stack_sin w;
     w_recv := w_recv w; w_signal := w_signal w;
     w_at_quit := w_at_quit w |}.

(** * Properties *)

(** ** Strings *)

Lemma c_string_tail c s : c_string (String c s) = true -> c_string s = true.
Proof. unfold c_string. simpl. now intros [_ H]%andb_prop. Qed.

Lemma c_string_head c s :
  c_string (String c s) = true -> nat_of_ascii c <> 0%nat.
Proof.
  unfold c_string. simpl. intros [H _]%andb_prop.
  now apply Nat.eqb_neq, negb_true_iff.
Qed.

Lemma byte_diff c d :
  c <> d -> Z.of_nat (nat_of_ascii c) - Z.of_nat (nat_of_ascii d) <> 0.
Proof.
  intros Hne Hz. apply Hne.
  rewrite <- (ascii_nat_embedding c), <- (ascii_nat_embedding d).
  f_equal. lia.
Qed.

Lemma strcmp_refl a : Libc.strcmp a a = 0.
Proof.
  induction a as [|c a IH]; simpl; [reflexivity|].
  now rewrite Ascii.eqb_refl.
Qed.

Lemma strcmp_zero a : forall b,
  c_string a = true -> c_string b = true -> Libc.strcmp a b = 0 -> a = b.
Proof.
  induction a as [|c a IH]; intros [|d b] Ha Hb H; simpl in H.
  - reflexivity.
  - apply c_string_head in Hb. lia.
  - apply c_string_head in Ha. lia.
  - destruct (Ascii.eqb_spec c d) as [->|Hne].
    + f_equal. apply IH; eauto using c_string_tail.
    + now apply byte_diff in H.
Qed.

Lemma strcmp_exact a b :
  c_string a = true -> c_string b = true ->
  (Libc.strcmp a b = 0 <-> a = b).
Proof.
  intros Ha Hb. split; [now apply strcmp_zero|].
  intros ->. apply strcmp_refl.
Qed.

(** ** Interface lookup *)

Lemma ifa_loop_some name l ifa sa :
  ifa_loop name l = Some (ifa, sa) ->
  In ifa l /\ ifa_addr ifa = Some sa /\ sa_family sa = Libc.AF_INET /\
  Libc.strcmp name (ifa_name ifa) = 0.
Proof.
  induction l as [|x l IH]; simpl; [discriminate|].
  destruct (ifa_addr x) as [sx|] eqn:Ex.
  - destruct (Z.eqb_spec (sa_family sx) Libc.AF_INET) as [Hf|Hf]; simpl.
    + destruct (Z.eqb_spec (Libc.strcmp name (ifa_name x)) 0) as [Hc|Hc].
      * intros [= <- <-]. auto.
      * intros H. destruct (IH H) as (? & ? & ? & ?). auto.
    + intros H. destruct (IH H) as (? & ? & ? & ?). auto.
  - intros H. destruct (IH H) as (? & ? & ? & ?). auto.
Qed.

Lemma ifa_loop_none name l :
  ifa_loop name l = None <->
  (forall ifa sa, In ifa l -> ifa_addr ifa = Some sa ->
     sa_family sa = Libc.AF_INET -> Libc.strcmp name (ifa_name ifa) <> 0).
Proof.
  induction l as [|x l IH]; simpl.
  - split; [intros _ ? ? []|reflexivity].
  - destruct (ifa_addr x) as [sx|] eqn:Ex.
    + destruct (Z.eqb_spec (sa_family sx) Libc.AF_INET) as [Hf|Hf]; simpl.
      * destruct (Z.eqb_spec (Libc.strcmp name (ifa_name x)) 0) as [Hc|Hc].
        -- split; [discriminate|]. intros H. exfalso.
           apply (H x sx); auto.
        -- rewrite IH. split.
           ++ intros H ifa sa [<-|Hin] Ha Hfam; [congruence|eauto].
           ++ intros H ifa sa Hin. apply H. now right.
      * rewrite IH. split.
        -- intros H ifa sa [<-|Hin] Ha Hfam; [congruence|eauto].
        -- intros H ifa sa Hin. apply H. now right.
    + rewrite IH. split.
      * intros H ifa sa [<-|Hin] Ha Hfam; [congruence|eauto].
      * intros H ifa sa Hin. apply H. now right.
Qed.

(** C8 (as amended).  When [getifaddrs] gives the interface list of the
    host, [get_inaddr] returns only the IPv4 address of an entry whose
    name is exactly the name asked for; it then exits with status 1 if
    and only if no entry of that name carries an IPv4 address (which
    covers the case that no interface has the name); and it always does
    one of the two.  When [getifaddrs] itself fails, [get_inaddr] exits
    with status 1 and the message of [err] for [getifaddrs], whatever
    the name. *)
Theorem get_inaddr_exact_name (w : world) (name : string) (p : proc) :
  c_string name = true ->
  (forall res,
     w_getifaddrs w = inl res ->
     Forall (fun ifa => c_string (ifa_name ifa) = true) res ->
     (forall a p', get_inaddr w name p = (inl a, p') ->
        exists ifa,
          In ifa res /\ ifa_name ifa = name /\ ipv4_of ifa = Some a) /\
     ((exists p', get_inaddr w name p = (inr (Exited 1), p')) <->
      (forall ifa, In ifa res -> ifa_name ifa = name -> ipv4_of ifa = None)) /\
     ((exists a p', get_inaddr w name p = (inl a, p')) \/
      (exists p', get_inaddr w name p = (inr (Exited 1), p')))) /\
  (forall e,
     w_getifaddrs w = inr e ->
     get_inaddr w name p =
       (inr (Exited 1),
        complained (err_text w "getifaddrs" e)
          (failed_with e (did c_getifaddrs p)))).
Proof.
  intros Hname. split.
  - intros res Hres Hall.
    rewrite Forall_forall in Hall.
    unfold get_inaddr, bind, called, errx, exit, eprintf, ret.
    rewrite Hres.
    destruct (ifa_loop name res) as [[ifa sa]|] eqn:Eloop; cbn.
    + apply ifa_loop_some in Eloop. destruct Eloop as (Hin & Ha & Hf & Hc).
      apply strcmp_zero in Hc; auto.
      assert (Hv : ipv4_of ifa = Some (sin_addr sa)).
      { unfold ipv4_of. rewrite Ha, Hf. reflexivity. }
      split; [|split].
      * intros a p' [= <- _]. exists ifa. repeat split; auto.
      * split.
        -- intros [p' H]. discriminate.
        -- intros H. specialize (H ifa Hin (eq_sym Hc)). congruence.
      * left. eauto.
    + split; [|split].
      * intros a p' H. discriminate.
      * split; [|eauto].
        intros _ ifa Hin Hn. unfold ipv4_of.
        destruct (ifa_addr ifa) as [sa|] eqn:Ha; [|reflexivity].
        destruct (Z.eqb_spec (sa_family sa) Libc.AF_INET) as [Hf|Hf];
          [|reflexivity].
        rewrite ifa_loop_none in Eloop.
        exfalso. apply (Eloop ifa sa Hin Ha Hf).
        rewrite Hn. apply strcmp_refl.
      * right. eauto.
  - intros e He.
    unfold get_inaddr, bind, called, set_errno, err, get_errno, eprintf, exit.
    rewrite He. reflexivity.
Qed.

(** C8, the claim as written fails: on a host where [eth0] has an IPv4
    address, a [getifaddrs] that fails makes the lookup of [eth0] exit
    with status 1 all the same. *)
Lemma getifaddrs_failure_exits_all_the_same :
  (exists res ifa,
     w_getifaddrs quiet_host = inl res /\ In ifa res /\
     ifa_name ifa = "eth0" /\ ipv4_of ifa = Some (dotted 192 0 2 7)) /\
  get_inaddr (with_getifaddrs quiet_host (inr "ENOMEM")) "eth0" proc0 =
    (inr (Exited 1),
     complained ("mc4sv: getifaddrs: ENOMEM" +++ Libc.nl)
       (failed_with "ENOMEM" (did c_getifaddrs proc0))).
Proof.
  split; [|vm_compute; reflexivity].
  eexists. eexists. split; [reflexivity|].
  split; [do 3 right; left; reflexivity|]. split; reflexivity.
Qed.

(** ** Configuration: options and operands *)

Lemma append_assoc (a b c : string) : (a +++ b) +++ c = a +++ b +++ c.
Proof. induction a as [|x a IH]; simpl; [reflexivity|now rewrite IH]. Qed.

Lemma append_nil_r (a : string) : a +++ "" = a.
Proof. induction a as [|x a IH]; simpl; [reflexivity|now rewrite IH]. Qed.

Lemma complained_nil p : complained "" p = p.
Proof. destruct p. unfold complained. simpl. now rewrite append_nil_r. Qed.

Lemma complained_twice s t p :
  complained t (complained s p) = complained (s +++ t) p.
Proof. unfold complained. simpl. now rewrite append_assoc. Qed.

Lemma option_case_cases pf w o c p :
  (exists c', option_case pf w o c p = (inl c', complained (go_diag o) p)) \/
  (exists msg, option_failure pf w o msg /\
     option_case pf w o c p =
       (inr (Exited 1), complained msg (complained (go_diag o) p))) \/
  (go_ch o = "t"%char /\
   Libc.fits_int (Libc.atoi (go_optarg o)) = false /\
   option_case pf w o c p = (inr Undefined, complained (go_diag o) p)).
Proof.
  unfold option_case, bind, eprintf.
  destruct (Ascii.eqb_spec (go_ch o) "i") as [Hi|Hi].
  { destruct (Nat.leb_spec (IFNAMSIZ pf) (Libc.strlen (go_optarg o))).
    - right; left. eexists. split; [now apply long_ifname|reflexivity].
    - left. eexists. reflexivity. }
  destruct (Ascii.eqb_spec (go_ch o) "q") as [Hq|Hq].
  { left. eexists. reflexivity. }
  destruct (Ascii.eqb_spec (go_ch o) "t") as [Ht|Ht].
  { destruct (Libc.fits_int (Libc.atoi (go_optarg o))) eqn:Hfit.
    - destruct (Z.ltb_spec 3600 (Libc.atoi (go_optarg o))).
      + right; left. eexists. split; [now apply large_timeout|reflexivity].
      + left. eexists. reflexivity.
    - right; right. auto. }
  right; left. eexists. split; [now apply unknown_option|reflexivity].
Qed.

Lemma option_failure_exits pf w o c p msg :
  option_failure pf w o msg ->
  (go_ch o = "t"%char -> Libc.fits_int (Libc.atoi (go_optarg o)) = true) ->
  option_case pf w o c p =
    (inr (Exited 1), complained msg (complained (go_diag o) p)).
Proof.
  intros Hf Hfit. unfold option_case, bind, eprintf.
  destruct Hf as [Hi Hq Ht|Hi Hlen|Ht Hbig].
  - destruct (Ascii.eqb_spec (go_ch o) "i"); [contradiction|].
    destruct (Ascii.eqb_spec (go_ch o) "q"); [contradiction|].
    destruct (Ascii.eqb_spec (go_ch o) "t"); [contradiction|].
    reflexivity.
  - rewrite Hi. simpl.
    destruct (Nat.leb_spec (IFNAMSIZ pf) (Libc.strlen (go_optarg o)));
      [reflexivity|lia].
  - rewrite Ht. simpl. rewrite (Hfit Ht).
    destruct (Z.ltb_spec 3600 (Libc.atoi (go_optarg o))); [reflexivity|lia].
Qed.

(** The three ways the option loop ends: with the options, all it wrote
    being diagnostics of [getopt]; at the first usage error; or in an
    [atoi] that overflows. *)
Lemma option_loop_cases pf w os : forall c p,
  (exists c' s, option_loop pf w os c p = (inl c', complained s p)) \/
  (exists o msg s, In o os /\ option_failure pf w o msg /\
     option_loop pf w os c p = (inr (Exited 1), complained (s +++ msg) p)) \/
  (exists o p', In o os /\ go_ch o = "t"%char /\
     Libc.fits_int (Libc.atoi (go_optarg o)) = false /\
     option_loop pf w os c p = (inr Undefined, p')).
Proof.
  induction os as [|o os IH]; intros c p; simpl.
  - left. exists c, "". now rewrite complained_nil.
  - unfold bind.
    destruct (option_case_cases pf w o c p)
      as [[c' E]|[(msg & Hf & E)|(Ht & Hfit & E)]]; rewrite E.
    + destruct (IH c' (complained (go_diag o) p))
        as [(c'' & s & E')|[(o' & msg & s & Hin & Hf & E')
                           |(o' & p' & Hin & Ht & Hfit & E')]]; rewrite E'.
      * left. exists c'', (go_diag o +++ s). now rewrite complained_twice.
      * right; left. exists o', msg, (go_diag o +++ s).
        rewrite complained_twice, append_assoc. auto.
      * right; right. exists o', p'. auto.
    + right; left. exists o, msg, (go_diag o).
      rewrite complained_twice. auto.
    + right; right. exists o, (complained (go_diag o) p). auto.
Qed.

Lemma option_loop_defined pf w os c p r p' :
  timeouts_fit os -> option_loop pf w os c p = (r, p') -> r <> inr Undefined.
Proof.
  intros Hfit E.
  destruct (option_loop_cases pf w os c p)
    as [(c' & s & E')|[(o & msg & s & _ & _ & E')
                      |(o & q & Hin & Ht & Hbad & _)]].
  - congruence.
  - congruence.
  - rewrite (Hfit o Hin Ht) in Hbad. discriminate.
Qed.

(** A usage error among the options stops the loop with status 1. *)
Lemma option_loop_exits pf w os : forall c p o msg,
  timeouts_fit os -> In o os -> option_failure pf w o msg ->
  exists s, option_loop pf w os c p = (inr (Exited 1), complained s p).
Proof.
  induction os as [|x os IH]; intros c p o msg Hfit Hin Hf; [destruct Hin|].
  simpl. unfold bind.
  assert (Hfit' : timeouts_fit os).
  { intros y Hy. apply Hfit. now right. }
  destruct (option_case_cases pf w x c p)
    as [[c' E]|[(m & Hm & E)|(Ht & Hbad & _)]].
  - rewrite E. destruct Hin as [->|Hin].
    + rewrite (option_failure_exits pf w o c p msg Hf) in E;
        [discriminate|]. apply Hfit. now left.
    + destruct (IH c' (complained (go_diag x) p) o msg Hfit' Hin Hf)
        as [s Es].
      rewrite Es. exists (go_diag x +++ s). now rewrite complained_twice.
  - rewrite E. exists (go_diag x +++ m). now rewrite complained_twice.
  - rewrite (Hfit x (or_introl eq_refl) Ht) in Hbad. discriminate.
Qed.

Lemma operand_switch_cases args p :
  ((List.length args <= 2)%nat /\
   exists ms, operand_switch args p = (inl ms, p)) \/
  ((2 < List.length args)%nat /\
   operand_switch args p = (inr (Exited 1), complained usage_text p)).
Proof.
  destruct args as [|m [|s [|x args]]]; simpl.
  - left. split; [lia|]. eexists. reflexivity.
  - left. split; [lia|]. eexists. reflexivity.
  - left. split; [lia|]. eexists. reflexivity.
  - right. split; [lia|]. reflexivity.
Qed.

Lemma main_stops_with_configure pf w p a p' :
  configure pf w p = (inr a, p') -> main pf w p = (inr a, p').
Proof. intros E. unfold main, bind. now rewrite E. Qed.

Lemma option_loop_app pf w os1 : forall os2 c p,
  option_loop pf w (os1 ++ os2) c p =
  match option_loop pf w os1 c p with
  | (inl c', p') => option_loop pf w os2 c' p'
  | (inr a, p') => (inr a, p')
  end.
Proof.
  induction os1 as [|o os1 IH]; intros os2 c p; simpl; [reflexivity|].
  unfold bind. destruct (option_case pf w o c p) as [[c'|a] p'];
    [apply IH|reflexivity].
Qed.

(** The three ways the option loop ends, with all it leaves on the
    error stream: what [getopt] wrote for the options handled and, at
    the first usage error, the text of that error. *)
Lemma option_loop_trace pf w os : forall c p,
  (exists c', option_loop pf w os c p = (inl c', complained (diag_text os) p)) \/
  (exists os1 o os2 msg c1,
     os = os1 ++ o :: os2 /\
     option_loop pf w os1 c p = (inl c1, complained (diag_text os1) p) /\
     option_failure pf w o msg /\
     option_loop pf w os c p =
       (inr (Exited 1), complained (diag_text (os1 ++ [o]) +++ msg) p)) \/
  (exists o p', In o os /\ go_ch o = "t"%char /\
     Libc.fits_int (Libc.atoi (go_optarg o)) = false /\
     option_loop pf w os c p = (inr Undefined, p')).
Proof.
  induction os as [|o os IH]; intros c p.
  - left. exists c. simpl. now rewrite complained_nil.
  - cbn [option_loop]. unfold bind.
    destruct (option_case_cases pf w o c p)
      as [[c' E]|[(msg & Hf & E)|(Ht & Hfit & E)]]; rewrite E.
    + destruct (IH c' (complained (go_diag o) p))
        as [(c'' & E')|[(os1 & o' & os2 & msg & c1 & -> & E1 & Hf & E')
                       |(o' & p' & Hin & Ht & Hfit & E')]]; rewrite E'.
      * left. exists c''. cbn [diag_text]. now rewrite complained_twice.
      * right; left. exists (o :: os1), o', os2, msg, c1.
        split; [reflexivity|]. split; [|split; [exact Hf|]].
        -- cbn [option_loop diag_text]. unfold bind. rewrite E, E1.
           now rewrite complained_twice.
        -- cbn [app diag_text]. now rewrite complained_twice, append_assoc.
      * right; right. exists o', p'. repeat split; auto. now right.
    + right; left. exists [], o, os, msg, c.
      split; [reflexivity|]. split; [|split; [exact Hf|]].
      * simpl. now rewrite complained_nil.
      * cbn [app diag_text]. now rewrite complained_twice, append_nil_r.
    + right; right. exists o, (complained (go_diag o) p).
      repeat split; auto. now left.
Qed.

(** C7 (as amended).  On a command line whose [-t] arguments fit [int],
    the program stops during configuration exactly when the command
    line has a usage error; it then exits with status 1, having written
    nothing to standard output and made no library or system call (no
    resolution, no socket).  The error stream then holds what [getopt]
    itself wrote for the options handled, followed by exactly one text
    of the program: at the first option that is in error, the usage
    line for an unknown option and the diagnostic of [errx], with no
    usage line, for an interface name that is too long or a timeout
    above 3600; after options that all pass, the usage line for more
    than two operands. *)
Theorem usage_errors_exit_early (pf : platform) (w : world) :
  timeouts_fit (w_getopt w) ->
  ((exists msg, usage_error pf w msg) <->
   (exists p, configure pf w proc0 = (inr (Exited 1), p))) /\
  (forall a p, configure pf w proc0 = (inr a, p) ->
     a = Exited 1 /\
     main pf w proc0 = (inr (Exited 1), p) /\
     p_stdout p = "" /\ p_calls p = [] /\
     ((exists os o os' msg c,
         w_getopt w = os ++ o :: os' /\
         option_loop pf w os defaults proc0 =
           (inl c, complained (diag_text os) proc0) /\
         option_failure pf w o msg /\
         p_stderr p = diag_text (os ++ [o]) +++ msg) \/
      ((exists c,
          option_loop pf w (w_getopt w) defaults proc0 =
            (inl c, complained (diag_text (w_getopt w)) proc0)) /\
       (2 < List.length (w_operands w))%nat /\
       p_stderr p = diag_text (w_getopt w) +++ usage_text))).
Proof.
  intros Hfit. unfold configure, bind.
  destruct (option_loop_trace pf w (w_getopt w) defaults proc0)
    as [(c & E)|[(os & o & os' & msg & c1 & Hw & E1 & Hf & E)
                |(o & q & Hin & Ht & Hbad & _)]].
  - rewrite E.
    destruct (operand_switch_cases (w_operands w)
                (complained (diag_text (w_getopt w)) proc0))
      as [(Hlen & ms & E')|(Hlen & E')]; rewrite E'.
    + split.
      * split; [|intros [p0 H]; discriminate].
        intros [msg [o m Hin Hf|Hmany]]; [|lia].
        destruct (option_loop_exits pf w (w_getopt w) defaults proc0 o m
                    Hfit Hin Hf) as [t Et].
        congruence.
      * intros a p0 H. discriminate.
    + split.
      * split; [eauto|]. intros _. exists usage_text. now apply in_operands.
      * intros a p0 [= <- <-].
        assert (Em : main pf w proc0 =
                     (inr (Exited 1),
                      complained usage_text
                        (complained (diag_text (w_getopt w)) proc0))).
        { apply main_stops_with_configure. unfold configure, bind.
          now rewrite E, E'. }
        repeat split; auto.
        right. split; [eauto|]. split; [exact Hlen|reflexivity].
  - rewrite E. split.
    + split; [eauto|]. intros _. exists msg. apply in_option with o; auto.
      rewrite Hw. apply in_or_app. right. now left.
    + intros a p0 [= <- <-].
      assert (Em : main pf w proc0 =
                   (inr (Exited 1),
                    complained (diag_text (os ++ [o]) +++ msg) proc0)).
      { apply main_stops_with_configure. unfold configure, bind.
        now rewrite E. }
      repeat split; auto.
      left. exists os, o, os', msg, c1. repeat split; auto.
  - rewrite (Hfit o Hin Ht) in Hbad. discriminate.
Qed.

(** C7, the claim as written fails: for [-t 3601] the program exits with
    status 1 before any call, but what it writes is the diagnostic of
    [errx]; the usage line is not on the error stream. *)
Lemma large_timeout_gets_no_usage_line :
  let w := with_args quiet_host [opt "t" "3601"] [] in
  usage_error lp64_le w (errx_text w "3601: invalid timeout (>3600)") /\
  run lp64_le w =
    (Some 1,
     complained ("mc4sv: 3601: invalid timeout (>3600)" +++ Libc.nl) proc0) /\
  occurs usage_text (p_stderr (snd (run lp64_le w))) = false.
Proof.
  cbv zeta. split; [|split; vm_compute; reflexivity].
  apply in_option with (opt "t" "3601"); [now left|].
  apply (large_timeout lp64_le _ (opt "t" "3601")); vm_compute; reflexivity.
Qed.

(** C3 (as amended).  When the option loop reaches a [-t] whose argument
    [atoi] reads as a value that fits [int], the program gives up exactly
    when that value is above 3600: it then exits with status 1 and the
    diagnostic of [errx], having made no call and written nothing to
    standard output; a value of at most 3600, be it 3600, zero, negative
    or the 0 that [atoi] gives for text without leading digits, becomes
    the timeout and the loop goes on. *)
Theorem timeout_option_gate (pf : platform) (w : world)
    (os os' : list getopt_ret) (o : getopt_ret) (c : options) (p : proc) :
  w_getopt w = os ++ o :: os' ->
  option_loop pf w os defaults proc0 = (inl c, p) ->
  go_ch o = "t"%char ->
  Libc.fits_int (Libc.atoi (go_optarg o)) = true ->
  (3600 < Libc.atoi (go_optarg o) ->
   let p' := complained
               (errx_text w (go_optarg o +++ ": invalid timeout (>3600)"))
               (complained (go_diag o) p) in
   main pf w proc0 = (inr (Exited 1), p') /\
   p_calls p' = [] /\ p_stdout p' = "") /\
  (Libc.atoi (go_optarg o) <= 3600 ->
   option_loop pf w (os ++ [o]) defaults proc0 =
     (inl {| ifname := ifname c; quiet := quiet c;
             timeout := Libc.atoi (go_optarg o) |},
      complained (go_diag o) p)).
Proof.
  intros Hw Hos Ht Hfit.
  assert (Hp : p_calls p = [] /\ p_stdout p = "").
  { destruct (option_loop_cases pf w os defaults proc0)
      as [(c' & s & E)|[(x & msg & s & _ & _ & E)|(x & q & _ & _ & _ & E)]];
      rewrite E in Hos; inversion Hos; subst; auto. }
  assert (Hc :
    option_case pf w o c p =
    if 3600 <? Libc.atoi (go_optarg o)
    then (inr (Exited 1),
          complained (errx_text w (go_optarg o +++ ": invalid timeout (>3600)"))
            (complained (go_diag o) p))
    else (inl {| ifname := ifname c; quiet := quiet c;
                 timeout := Libc.atoi (go_optarg o) |},
          complained (go_diag o) p)).
  { unfold option_case, bind, eprintf. rewrite Ht. simpl. rewrite Hfit.
    destruct (3600 <? Libc.atoi (go_optarg o)); reflexivity. }
  split.
  - intros Hbig p'. subst p'.
    destruct (Z.ltb_spec 3600 (Libc.atoi (go_optarg o))); [|lia].
    split; [|simpl; tauto].
    apply main_stops_with_configure. unfold configure, bind.
    rewrite Hw, option_loop_app, Hos. simpl. unfold bind.
    now rewrite Hc.
  - intros Hsmall.
    destruct (Z.ltb_spec 3600 (Libc.atoi (go_optarg o))); [lia|].
    rewrite option_loop_app, Hos. simpl. unfold bind.
    now rewrite Hc.
Qed.

(** C3, the claim as written fails: a negative timeout and one that is
    not a number both pass configuration, as the timeouts -5 and 0. *)
Lemma negative_and_non_numeric_timeouts_pass :
  configure lp64_le (with_args quiet_host [opt "t" "-5"] []) proc0 =
    (inl ({| ifname := ""; quiet := false; timeout := -5 |},
          ("224.0.0.1", "discard")), proc0) /\
  configure lp64_le (with_args quiet_host [opt "t" "abc"] []) proc0 =
    (inl ({| ifname := ""; quiet := false; timeout := 0 |},
          ("224.0.0.1", "discard")), proc0).
Proof. split; vm_compute; reflexivity. Qed.

(** ** The receive loop *)

Lemma sigsetjmp_again_nonzero c : sigsetjmp_again c <> 0.
Proof. destruct c as [val]. simpl. destruct (Z.eqb_spec val 0); lia. Qed.

Lemma recvfrom_returned pf ev old :
  fst (recvfrom_result pf BUFFERSIZE ev old) = returned ev.
Proof. destruct ev; reflexivity. Qed.

Lemma loop_body_turn pf q fd ev st p :
  fst (loop_body pf q fd ev st p) = inl (turn pf st ev).
Proof.
  unfold loop_body, recvfrom, bind, called, set_errno, printf, ret.
  destruct ev, q; reflexivity.
Qed.

Lemma receive_loop_tally pf q fd evs : forall st p,
  fst (receive_loop pf q fd evs st p) = inl (tally pf evs st).
Proof.
  induction evs as [|ev evs IH]; intros st p; simpl; [reflexivity|].
  unfold bind.
  pose proof (loop_body_turn pf q fd ev st p) as H.
  destruct (loop_body pf q fd ev st p) as [[st'|a] p']; simpl in H;
    [|discriminate].
  injection H as ->. apply IH.
Qed.

Lemma tally_app pf evs1 evs2 st :
  tally pf (evs1 ++ evs2) st = tally pf evs2 (tally pf evs1 st).
Proof. apply fold_left_app. Qed.

Lemma to_size_t_idem pf z : to_size_t pf (to_size_t pf z) = to_size_t pf z.
Proof. apply Zmod_mod. Qed.

Lemma to_size_t_small pf z :
  0 <= z < 2 ^ size_bits pf -> to_size_t pf z = z.
Proof. apply Z.mod_small. Qed.

Lemma turn_packets pf st ev :
  packets (turn pf st ev) = to_size_t pf (packets st + 1).
Proof. reflexivity. Qed.

Lemma turn_sumsize pf st ev :
  sumsize (turn pf st ev) = to_size_t pf (sumsize st + returned ev).
Proof.
  unfold turn, count. simpl. rewrite recvfrom_returned.
  unfold to_size_t. now rewrite Zplus_mod_idemp_r.
Qed.

(** The counters are the number of turns and the sum of what [recvfrom]
    returned, as [size_t] values: reduced modulo [2 ^ size_bits]. *)
Lemma tally_counters pf evs : forall st,
  packets st = to_size_t pf (packets st) ->
  sumsize st = to_size_t pf (sumsize st) ->
  packets (tally pf evs st) =
    to_size_t pf (packets st + Z.of_nat (List.length evs)) /\
  sumsize (tally pf evs st) =
    to_size_t pf (sumsize st + Zsum (map returned evs)).
Proof.
  induction evs as [|ev evs IH]; intros st Hp Hs.
  - simpl. rewrite !Z.add_0_r. auto.
  - change (tally pf (ev :: evs) st) with (tally pf evs (turn pf st ev)).
    destruct (IH (turn pf st ev)) as [IHp IHs].
    + rewrite turn_packets. now rewrite to_size_t_idem.
    + rewrite turn_sumsize. now rewrite to_size_t_idem.
    + rewrite IHp, IHs, turn_packets, turn_sumsize.
      unfold to_size_t. rewrite !Zplus_mod_idemp_l.
      split; f_equal; simpl Zsum; simpl List.length; lia.
Qed.

Lemma arrived_returned ev : arrived ev -> 0 <= returned ev.
Proof. destruct ev; simpl; [|tauto]. unfold BUFFERSIZE. lia. Qed.

Lemma Zsum_arrived evs : Forall arrived evs -> 0 <= Zsum (map returned evs).
Proof.
  induction 1 as [|ev evs Hev _ IH]; simpl; [lia|].
  apply arrived_returned in Hev. lia.
Qed.

Lemma Zsum_app l1 l2 : Zsum (l1 ++ l2) = Zsum l1 + Zsum l2.
Proof. induction l1 as [|x l1 IH]; simpl; lia. Qed.

(** C1 (as amended).  In a run of the receive loop in which every
    receive returns a datagram and the counters do not wrap around
    (fewer than [2 ^ size_bits] datagrams and bytes), each datagram,
    in the order of arrival, adds exactly 1 to [packets] and to
    [sumsize] exactly the part of its payload that fits the buffer of
    2048 bytes; after N datagrams the counters are N and the sum of
    these N lengths, and no datagram makes a counter smaller. *)
Theorem counters_follow_datagrams (pf : platform) (q : bool) (fd : Z)
    (evs : list recv_event) (sin0 : sockaddr_in) (p : proc) :
  Forall arrived evs ->
  Z.of_nat (List.length evs) < 2 ^ size_bits pf ->
  Zsum (map returned evs) < 2 ^ size_bits pf ->
  let st0 := {| packets := 0; sumsize := 0; sin := sin0 |} in
  let after := fun l => fst (receive_loop pf q fd l st0 p) in
  (exists st, after evs = inl st /\
     packets st = Z.of_nat (List.length evs) /\
     sumsize st = Zsum (map returned evs)) /\
  (forall evs1 ev evs2, evs = evs1 ++ ev :: evs2 ->
     exists st1 st2,
       after evs1 = inl st1 /\ after (evs1 ++ [ev]) = inl st2 /\
       packets st2 = packets st1 + 1 /\
       sumsize st2 = sumsize st1 + returned ev /\
       packets st1 <= packets st2 /\ sumsize st1 <= sumsize st2).
Proof.
  intros Harr Hn Hsum st0 after.
  assert (Hafter : forall l, Forall arrived l ->
            Z.of_nat (List.length l) <= Z.of_nat (List.length evs) ->
            Zsum (map returned l) <= Zsum (map returned evs) ->
            after l = inl (tally pf l st0) /\
            packets (tally pf l st0) = Z.of_nat (List.length l) /\
            sumsize (tally pf l st0) = Zsum (map returned l)).
  { intros l Hl Hlen Hle. split; [apply receive_loop_tally|].
    destruct (tally_counters pf l st0) as [Hp Hs];
      [reflexivity|reflexivity|].
    rewrite Hp, Hs. simpl.
    pose proof (Zsum_arrived l Hl).
    split; apply to_size_t_small; lia. }
  split.
  - exists (tally pf evs st0). apply Hafter; auto; lia.
  - intros evs1 ev evs2 ->.
    rewrite Forall_app in Harr. destruct Harr as [H1 H2].
    inversion H2 as [|? ? Hev H3]; subst.
    pose proof (Zsum_arrived evs1 H1) as S1.
    pose proof (Zsum_arrived evs2 H3) as S2.
    pose proof (arrived_returned ev Hev) as S3.
    rewrite map_app, Zsum_app in Hsum. simpl in Hsum.
    rewrite length_app in Hn. simpl in Hn.
    destruct (Hafter evs1) as (E1 & P1 & B1); auto.
    { rewrite length_app. lia. }
    { rewrite map_app, Zsum_app. simpl. lia. }
    destruct (Hafter (evs1 ++ [ev])) as (E2 & P2 & B2).
    { apply Forall_app. auto. }
    { rewrite !length_app. simpl. lia. }
    { rewrite !map_app, !Zsum_app. simpl. lia. }
    exists (tally pf evs1 st0), (tally pf (evs1 ++ [ev]) st0).
    rewrite P1, P2, B1, B2, map_app, Zsum_app, length_app. simpl.
    repeat split; auto; lia.
Qed.

(** C1, the claim as written fails: a datagram with a payload of 3000
    bytes adds 2048 to the byte counter, and is reported with 2048, so
    that after this one datagram the counter is not the sum of the
    payload lengths. *)
Lemma long_datagram_counts_short :
  let evs := [Datagram (dotted 192 0 2 1) 5000 3000] in
  let r := receive_loop lp64_le false 3 evs
             {| packets := 0; sumsize := 0; sin := w_stack_sin quiet_host |}
             proc0 in
  Forall arrived evs /\
  Zsum (map payload evs) = 3000 /\
  fst r =
    inl {| packets := 1; sumsize := 2048;
           sin := {| sa_family := 2; sin_port := 34835;
                     sin_addr := dotted 192 0 2 1 |} |} /\
  p_stdout (snd r) = "received from 192.0.2.1:34835 (2048)" +++ Libc.nl.
Proof.
  cbv zeta. split; [|split; [|split]]; [|vm_compute; reflexivity ..].
  repeat constructor. simpl. lia.
Qed.

(** C9.  A datagram longer than the buffer of 2048 bytes is counted and
    reported with the length 2048, and the turn of the loop is the very
    turn a datagram of 2048 bytes from the same sender gives: nothing
    tells the two apart.  A datagram of at most 2048 bytes is counted
    and reported with its full length. *)
Theorem long_datagram_truncated (pf : platform) (q : bool) (fd : Z)
    (src : Libc.in_addr) (port len : Z) (st : counters) (p : proc) :
  0 <= len ->
  BUFFERSIZE < 2 ^ size_bits pf ->
  let kept := Z.min len BUFFERSIZE in
  let line :=
    "received from " +++ Libc.inet_ntoa src +++ ":" +++
    Libc.decimal (htons pf port) +++ " (" +++ Libc.decimal kept +++ ")" +++
    Libc.nl in
  loop_body pf q fd (Datagram src port len) st p =
    (inl {| packets := to_size_t pf (packets st + 1);
            sumsize := to_size_t pf (sumsize st + kept);
            sin := {| sa_family := Libc.AF_INET; sin_port := htons pf port;
                      sin_addr := src |} |},
     if q then did (c_recvfrom fd) p
     else wrote line (did (c_recvfrom fd) p)) /\
  (BUFFERSIZE < len ->
   kept = BUFFERSIZE /\
   loop_body pf q fd (Datagram src port len) st p =
   loop_body pf q fd (Datagram src port BUFFERSIZE) st p) /\
  (len <= BUFFERSIZE -> kept = len).
Proof.
  intros Hlen Hbits kept line.
  assert (Hkept : to_size_t pf kept = kept).
  { apply to_size_t_small. unfold kept, BUFFERSIZE in *. lia. }
  split; [|split].
  - unfold loop_body, recvfrom, bind, called, printf, ret, count,
      packet_line.
    cbn [fst snd recvfrom_result sin sin_port sin_addr].
    fold kept. rewrite Hkept. destruct q; reflexivity.
  - intros Hbig. split; [unfold kept; lia|].
    unfold loop_body, recvfrom, bind, called, printf, ret, count,
      packet_line.
    cbn [fst snd recvfrom_result sin sin_port sin_addr].
    replace (Z.min len BUFFERSIZE) with BUFFERSIZE by lia.
    now rewrite Z.min_id.
  - intros Hsmall. unfold kept. lia.
Qed.

(** C4, on the code: the line for a datagram shows the sender's address
    in dotted-decimal form and the length, but the port as the host
    reads the [sin_port] field, which is in network byte order.  On a
    little-endian host the turn of the loop for a datagram from port 80
    prints port 20480; [ntohs] would give back 80.  A big-endian host
    prints 80. *)
Theorem packet_line_port_not_converted :
  (forall pf src port received,
     packet_line pf {| sa_family := Libc.AF_INET; sin_port := htons pf port;
                       sin_addr := src |} received =
     "received from " +++ Libc.inet_ntoa src +++ ":" +++
     Libc.decimal (htons pf port) +++ " (" +++
     Libc.decimal (to_size_t pf received) +++ ")" +++ Libc.nl) /\
  (let ev := Datagram (dotted 192 0 2 1) 80 10 in
   let st0 := {| packets := 0; sumsize := 0; sin := w_stack_sin quiet_host |} in
   p_stdout (snd (loop_body lp64_le false 3 ev st0 proc0)) =
     "received from 192.0.2.1:20480 (10)" +++ Libc.nl /\
   ntohs lp64_le 20480 = 80 /\
   p_stdout (snd (loop_body lp64_be false 3 ev st0 proc0)) =
     "received from 192.0.2.1:80 (10)" +++ Libc.nl).
Proof.
  split; [reflexivity|].
  cbv zeta. repeat split; vm_compute; reflexivity.
Qed.

(** C2, on the code: the loop does not look at what [recvfrom] returns.
    A failed receive takes an ordinary turn: it is counted as a packet,
    the -1 is added to the byte counter as a [size_t], nothing goes to
    the error stream, the process does not exit and the loop goes on.
    With a datagram of 10 bytes, a failed receive and a datagram of 5
    bytes the loop makes three calls and ends with 3 packets and 14
    bytes; and a session whose only receive fails returns status 0 at
    the signal, with an empty error stream. *)
Theorem failed_receive_is_counted :
  (forall pf q fd e st p,
     exists st' p',
       loop_body pf q fd (RecvError e) st p = (inl st', p') /\
       packets st' = to_size_t pf (packets st + 1) /\
       sumsize st' = to_size_t pf (sumsize st - 1) /\
       p_stderr p' = p_stderr p) /\
  (let r := receive_loop lp64_le false 3
              [Datagram (dotted 192 0 2 1) 5000 10; RecvError "ENOBUFS";
               Datagram (dotted 192 0 2 1) 5000 5]
              {| packets := 0; sumsize := 0; sin := w_stack_sin quiet_host |}
              proc0 in
   exists st, fst r = inl st /\ packets st = 3 /\ sumsize st = 14 /\
     p_stderr (snd r) = "" /\
     p_calls (snd r) = [c_recvfrom 3; c_recvfrom 3; c_recvfrom 3]) /\
  (exists p',
     session lp64_le (with_recv quiet_host [RecvError "ENOBUFS"] SIGINT)
       defaults 3 proc0 = (inl 0, p') /\
     p_stderr p' = "").
Proof.
  split; [|split].
  - intros pf q fd e st p.
    unfold loop_body, recvfrom, bind, called, set_errno, printf, ret.
    destruct q; cbn [negb]; do 2 eexists;
      (split; [reflexivity|]);
      cbn [packets sumsize count fst snd recvfrom_result p_stderr wrote did
           failed_with];
      (repeat split);
      unfold to_size_t; rewrite Zplus_mod_idemp_r; f_equal; lia.
  - cbv zeta. eexists. split; [vm_compute; reflexivity|].
    repeat split; vm_compute; reflexivity.
  - eexists. split; vm_compute; reflexivity.
Qed.

(** ** Opening the socket *)

Lemma fd_is_not_minus_one n : (Z.of_nat n =? -1) = false.
Proof. apply Z.eqb_neq. lia. Qed.

Lemma candidate_fails imr c rest cause p :
  fails c ->
  candidate_loop imr (c :: rest) cause p =
  candidate_loop imr rest (caused cause c) (tried imr p c).
Proof.
  unfold fails, caused, tried, failure, attempt_calls. intros Hf.
  simpl. unfold bind, socket, sys_bind, setsockopt, close, called,
    set_errno, ret, bind, did, failed_with.
  destruct (k_socket c) as [n|e]; cbn.
  - rewrite fd_is_not_minus_one.
    destruct (k_bind c) as [e|]; cbn.
    + now rewrite <- !app_assoc.
    + destruct (k_setsockopt c) as [e|]; cbn; [|congruence].
      now rewrite <- !app_assoc.
  - reflexivity.
Qed.

Lemma candidate_succeeds imr c rest cause p :
  failure c = None ->
  exists n, k_socket c = inl n /\
    candidate_loop imr (c :: rest) cause p =
    (inl (Some (Z.of_nat n), cause), tried imr p c).
Proof.
  unfold tried, failure, attempt_calls. intros Hf.
  simpl. unfold bind, socket, sys_bind, setsockopt, close, called,
    set_errno, ret, bind, did, failed_with.
  destruct (k_socket c) as [n|e]; [|discriminate].
  destruct (k_bind c) as [e|]; [discriminate|].
  destruct (k_setsockopt c) as [e|]; [discriminate|].
  exists n. split; [reflexivity|]. cbn.
  rewrite fd_is_not_minus_one. cbn.
  now rewrite <- !app_assoc.
Qed.

(** Candidates that fail are tried one after the other. *)
Lemma candidate_loop_failures imr pre : forall rest cause p,
  Forall fails pre ->
  candidate_loop imr (pre ++ rest) cause p =
  candidate_loop imr rest (fold_left caused pre cause)
    (fold_left (tried imr) pre p).
Proof.
  induction pre as [|c pre IH]; intros rest cause p Hf; [reflexivity|].
  inversion Hf as [|? ? Hc Hpre]; subst.
  change ((c :: pre) ++ rest) with (c :: (pre ++ rest)).
  rewrite candidate_fails by assumption.
  now rewrite IH.
Qed.

Lemma tried_all imr cs : forall p,
  p_stdout (fold_left (tried imr) cs p) = p_stdout p /\
  p_stderr (fold_left (tried imr) cs p) = p_stderr p /\
  p_calls (fold_left (tried imr) cs p) =
    p_calls p ++ flat_map (attempt_calls imr) cs.
Proof.
  induction cs as [|c cs IH]; intros p; simpl.
  - now rewrite app_nil_r.
  - destruct (IH (tried imr p c)) as (H1 & H2 & H3).
    rewrite H1, H2, H3. simpl. now rewrite app_assoc.
Qed.

Lemma open_fds_app cs1 : forall cs2 acc,
  open_fds (cs1 ++ cs2) acc = open_fds cs2 (open_fds cs1 acc).
Proof.
  induction cs1 as [|c cs1 IH]; intros cs2 acc; [reflexivity|].
  destruct c; simpl; auto.
  destruct (r =? -1); auto.
Qed.

Lemma remove_only fd : remove Z.eq_dec fd [fd] = [].
Proof. simpl. destruct (Z.eq_dec fd fd); [reflexivity|contradiction]. Qed.

(** A candidate that fails leaves no descriptor open. *)
Lemma failed_attempt_closed imr c :
  fails c -> open_fds (attempt_calls imr c) [] = [].
Proof.
  unfold fails, failure, attempt_calls.
  destruct (k_socket c) as [n|e]; [|reflexivity].
  intros Hf. cbn. rewrite fd_is_not_minus_one.
  destruct (k_bind c) as [e|]; cbn.
  - apply remove_only.
  - destruct (k_setsockopt c) as [e|]; cbn; [apply remove_only|congruence].
Qed.

Lemma failed_attempts_closed imr cs :
  Forall fails cs -> open_fds (flat_map (attempt_calls imr) cs) [] = [].
Proof.
  induction 1 as [|c cs Hc _ IH]; [reflexivity|].
  simpl. rewrite open_fds_app, failed_attempt_closed by assumption.
  exact IH.
Qed.

Lemma failure_names c op e :
  failure c = Some (op, e) -> In op ["socket"; "bind"; "IP_ADD_MEMBERSHIP"].
Proof.
  unfold failure.
  destruct (k_socket c); [destruct (k_bind c); [|destruct (k_setsockopt c)]|];
    intros [= <- _]; simpl; auto.
Qed.

(** C5 (as amended).  The candidates are tried in the order of the list.
    When every candidate fails, the program exits with status 1 and the
    message of [err] that names the operation at which the last candidate
    failed, one of "socket", "bind" and "IP_ADD_MEMBERSHIP", with the
    [errno] of that failure, and every descriptor it opened is closed.
    When a candidate succeeds after candidates that fail, the descriptor
    of that candidate is returned, no later candidate is tried, and that
    descriptor is the only one left open. *)
Theorem candidates_tried_in_order (w : world) (imr : ip_mreq)
    (res : list candidate) (p : proc) :
  res <> [] ->
  let r := group_socket w imr res p in
  (Forall fails res ->
   exists pre c op e,
     res = pre ++ [c] /\ failure c = Some (op, e) /\
     In op ["socket"; "bind"; "IP_ADD_MEMBERSHIP"] /\
     fst r = inr (Exited 1) /\
     p_stderr (snd r) = p_stderr p +++ err_text w op e /\
     p_stdout (snd r) = p_stdout p /\
     p_calls (snd r) = p_calls p ++ flat_map (attempt_calls imr) res /\
     open_fds (flat_map (attempt_calls imr) res) [] = []) /\
  (forall pre c post,
     res = pre ++ c :: post -> Forall fails pre -> failure c = None ->
     exists n,
       k_socket c = inl n /\
       fst r = inl (Z.of_nat n) /\
       p_stderr (snd r) = p_stderr p /\
       p_stdout (snd r) = p_stdout p /\
       p_calls (snd r) =
         p_calls p ++ flat_map (attempt_calls imr) (pre ++ [c]) ++
         [c_freeaddrinfo] /\
       open_fds (flat_map (attempt_calls imr) (pre ++ [c])) [] =
         [Z.of_nat n]).
Proof.
  intros Hne r. subst r. split.
  - intros Hall.
    destruct (exists_last Hne) as (pre & c & ->).
    pose proof Hall as Hall'.
    rewrite Forall_app in Hall'. destruct Hall' as [Hpre Hc].
    inversion Hc as [|? ? Hfc _]; subst.
    destruct (failure c) as [[op e]|] eqn:Ef; [|now elim Hfc].
    exists pre, c, op, e.
    split; [reflexivity|]. split; [assumption|].
    split; [now apply failure_names with c e|].
    unfold group_socket, bind.
    rewrite <- (app_nil_r (pre ++ [c])) at 1 2 3 4.
    rewrite candidate_loop_failures by assumption.
    destruct (tried_all imr (pre ++ [c]) p) as (H1 & H2 & H3).
    assert (Hcause : fold_left caused (pre ++ [c]) None = Some op).
    { rewrite fold_left_app. simpl. unfold caused. now rewrite Ef. }
    assert (Herrno : p_errno (fold_left (tried imr) (pre ++ [c]) p) = e).
    { rewrite fold_left_app. simpl. now rewrite Ef. }
    simpl. rewrite Hcause.
    unfold err, bind, get_errno, eprintf, exit, complained. simpl.
    rewrite Herrno, H1, H2, H3.
    repeat split. now apply failed_attempts_closed.
  - intros pre c post -> Hpre Hc.
    destruct (candidate_succeeds imr c post
                (fold_left caused pre None) (fold_left (tried imr) pre p) Hc)
      as (n & Hn & E).
    exists n. split; [assumption|].
    unfold group_socket, bind.
    rewrite candidate_loop_failures by assumption.
    rewrite E. unfold called, ret, did, bind. simpl.
    destruct (tried_all imr pre p) as (H1 & H2 & H3).
    rewrite H1, H2, H3.
    repeat split.
    + rewrite flat_map_app. simpl. now rewrite app_nil_r, !app_assoc.
    + rewrite flat_map_app, open_fds_app.
      rewrite failed_attempts_closed by assumption.
      simpl. rewrite app_nil_r.
      unfold attempt_calls, failure in *. rewrite Hn in *.
      destruct (k_bind c); [discriminate|].
      destruct (k_setsockopt c); [discriminate|].
      cbn. now rewrite fd_is_not_minus_one.
Qed.

(** C5, the claim as written fails: when the join is what fails, the
    operation the message names is "IP_ADD_MEMBERSHIP", which is none of
    "socket", "bind" and "join". *)
Lemma join_failure_is_named_after_the_option :
  let c := {| ai := any4 9; k_socket := inl 3%nat; k_bind := None;
              k_setsockopt := Some "ENODEV" |} in
  let r := run lp64_le (with_candidates quiet_host [c]) in
  fst r = Some 1 /\
  p_stderr (snd r) = "mc4sv: IP_ADD_MEMBERSHIP: ENODEV" +++ Libc.nl /\
  failure c = Some ("IP_ADD_MEMBERSHIP", "ENODEV") /\
  ~ In "IP_ADD_MEMBERSHIP" ["socket"; "bind"; "join"].
Proof.
  cbv zeta. split; [|split; [|split]]; [vm_compute; reflexivity ..|].
  simpl. intros [H|[H|[H|[]]]]; discriminate.
Qed.

(** ** The group argument *)

(** A unicast address that [inet_aton] parses is joined like any other. *)
Example unicast_group_is_joined :
  let r := run lp64_le (with_args quiet_host [] ["10.1.2.3"]) in
  fst r = Some 0 /\
  In (c_setsockopt 3 {| imr_multiaddr := dotted 10 1 2 3;
                        imr_interface := Libc.INADDR_ANY |})
     (p_calls (snd r)).
Proof. cbv zeta. split; vm_compute; auto 10. Qed.

(** ** The theorems at concrete inputs *)

(** C8 on the host of [quiet_host]: [eth0] resolves or the program exits. *)
Lemma get_inaddr_exact_name_witness :
  (exists a p', get_inaddr quiet_host "eth0" proc0 = (inl a, p')) \/
  (exists p', get_inaddr quiet_host "eth0" proc0 = (inr (Exited 1), p')).
Proof.
  refine (proj2 (proj2 (proj1 (get_inaddr_exact_name quiet_host "eth0" proc0
                                 eq_refl) _ eq_refl _))).
  repeat constructor.
Defined.

(** C7 on a command line with three operands. *)
Lemma usage_errors_exit_early_witness :
  (exists msg,
     usage_error lp64_le (with_args quiet_host [opt "q" ""] ["a"; "b"; "c"])
       msg) <->
  (exists p,
     configure lp64_le (with_args quiet_host [opt "q" ""] ["a"; "b"; "c"])
       proc0 = (inr (Exited 1), p)).
Proof.
  refine (proj1 (usage_errors_exit_early lp64_le
                   (with_args quiet_host [opt "q" ""] ["a"; "b"; "c"]) _)).
  intros o [<-|[]] H. vm_compute in H. discriminate.
Defined.

(** C3 on [-q -t 3600]: the timeout 3600 is accepted. *)
Lemma timeout_option_gate_witness :
  option_loop lp64_le (with_args quiet_host [opt "q" ""; opt "t" "3600"] [])
    ([opt "q" ""] ++ [opt "t" "3600"]) defaults proc0 =
  (inl {| ifname := ""; quiet := true; timeout := 3600 |},
   complained "" (complained "" proc0)).
Proof.
  refine (proj2 (timeout_option_gate lp64_le
                   (with_args quiet_host [opt "q" ""; opt "t" "3600"] [])
                   [opt "q" ""] [] (opt "t" "3600")
                   {| ifname := ""; quiet := true; timeout := 0 |}
                   (complained "" proc0)
                   eq_refl eq_refl eq_refl eq_refl) _).
  vm_compute. discriminate.
Defined.

(** C1 on datagrams of 10, 0 and 1400 bytes: 3 packets, 1410 bytes. *)
Lemma counters_follow_datagrams_witness :
  exists st,
    fst (receive_loop lp64_le false 3
           [Datagram (dotted 192 0 2 1) 5000 10;
            Datagram (dotted 192 0 2 1) 5001 0;
            Datagram (dotted 192 0 2 9) 5002 1400]
           {| packets := 0; sumsize := 0; sin := w_stack_sin quiet_host |}
           proc0) = inl st /\
    packets st = 3 /\ sumsize st = 1410.
Proof.
  refine (proj1 (counters_follow_datagrams lp64_le false 3
                   [Datagram (dotted 192 0 2 1) 5000 10;
                    Datagram (dotted 192 0 2 1) 5001 0;
                    Datagram (dotted 192 0 2 9) 5002 1400]
                   (w_stack_sin quiet_host) proc0 _ _ _)).
  - repeat constructor; simpl; lia.
  - vm_compute. reflexivity.
  - vm_compute. reflexivity.
Defined.

(** C9 on a datagram of 3000 bytes. *)
Lemma long_datagram_truncated_witness :
  loop_body lp64_le false 3 (Datagram (dotted 192 0 2 1) 5000 3000)
    {| packets := 0; sumsize := 0; sin := w_stack_sin quiet_host |} proc0 =
  loop_body lp64_le false 3 (Datagram (dotted 192 0 2 1) 5000 BUFFERSIZE)
    {| packets := 0; sumsize := 0; sin := w_stack_sin quiet_host |} proc0.
Proof.
  refine (proj2 (proj1 (proj2 (long_datagram_truncated lp64_le false 3
                   (dotted 192 0 2 1) 5000 3000
                   {| packets := 0; sumsize := 0;
                      sin := w_stack_sin quiet_host |} proc0 _ _)) _)).
  - lia.
  - vm_compute. reflexivity.
  - vm_compute. reflexivity.
Defined.

(** C5 on four candidates, of which the third is the first to succeed. *)
Lemma candidates_tried_in_order_witness :
  exists n,
    k_socket joined = inl n /\
    fst (group_socket quiet_host
           {| imr_multiaddr := dotted 224 0 0 1; imr_interface := 0 |}
           [refused; in_use; joined; refused] proc0) = inl (Z.of_nat n) /\
    p_stderr (snd (group_socket quiet_host
           {| imr_multiaddr := dotted 224 0 0 1; imr_interface := 0 |}
           [refused; in_use; joined; refused] proc0)) = p_stderr proc0 /\
    p_stdout (snd (group_socket quiet_host
           {| imr_multiaddr := dotted 224 0 0 1; imr_interface := 0 |}
           [refused; in_use; joined; refused] proc0)) = p_stdout proc0 /\
    p_calls (snd (group_socket quiet_host
           {| imr_multiaddr := dotted 224 0 0 1; imr_interface := 0 |}
           [refused; in_use; joined; refused] proc0)) =
      p_calls proc0 ++
      flat_map (attempt_calls
                  {| imr_multiaddr := dotted 224 0 0 1; imr_interface := 0 |})
        ([refused; in_use] ++ [joined]) ++ [c_freeaddrinfo] /\
    open_fds (flat_map (attempt_calls
                  {| imr_multiaddr := dotted 224 0 0 1; imr_interface := 0 |})
                ([refused; in_use] ++ [joined])) [] = [Z.of_nat n].
Proof.
  refine (proj2 (candidates_tried_in_order quiet_host
                   {| imr_multiaddr := dotted 224 0 0 1; imr_interface := 0 |}
                   [refused; in_use; joined; refused] proc0 _)
            [refused; in_use] joined [refused] eq_refl _ eq_refl).
  - discriminate.
  - repeat constructor; vm_compute; discriminate.
Defined.

(** * Further properties of the code *)

(** ** The receive loop and the end of the session *)

Lemma loop_body_run pf q fd ev st p :
  exists p1,
    loop_body pf q fd ev st p = (inl (turn pf st ev), p1) /\
    p_stdout p1 =
      p_stdout p +++
      (if q then ""
       else let r := recvfrom_result pf BUFFERSIZE ev (sin st) in
            packet_line pf (snd r) (fst r)) /\
    p_stderr p1 = p_stderr p /\
    p_errno p1 = match ev with RecvError e => e | _ => p_errno p end /\
    p_calls p1 = p_calls p ++ [c_recvfrom fd].
Proof.
  unfold loop_body, recvfrom, bind, called, set_errno, printf, ret.
  destruct ev, q; cbn [negb]; eexists; (split; [reflexivity|]);
    cbn [p_stdout p_stderr p_errno p_calls wrote did failed_with];
    rewrite ?append_nil_r; repeat split.
Qed.

(** What the loop does to the process, for any list of events. *)
Lemma receive_loop_run pf q fd evs : forall st p,
  exists p',
    receive_loop pf q fd evs st p = (inl (tally pf evs st), p') /\
    p_stdout p' = p_stdout p +++ (if q then "" else packet_log pf evs st) /\
    p_stderr p' = p_stderr p /\
    p_errno p' = errno_after evs (p_errno p) /\
    p_calls p' =
      p_calls p ++ repeat (c_recvfrom fd) (List.length evs).
Proof.
  induction evs as [|ev evs IH]; intros st p.
  - exists p. simpl. rewrite app_nil_r.
    destruct q; rewrite append_nil_r; repeat split.
  - destruct (loop_body_run pf q fd ev st p) as (p1 & E1 & O1 & R1 & N1 & C1).
    destruct (IH (turn pf st ev) p1) as (p' & E & O & R & N & C).
    exists p'. cbn [receive_loop]. unfold bind. rewrite E1, E.
    split; [reflexivity|].
    rewrite O, O1, R, R1, N, N1, C, C1.
    repeat split.
    + destruct q; rewrite append_assoc; reflexivity.
    + now rewrite <- app_assoc.
Qed.

(** X1.  Quiet mode changes what the loop writes and nothing else: with
    and without [-q] the loop ends with the same counters, the same
    error stream, the same [errno] and the same calls, and with [-q] it
    leaves standard output as it was. *)
Theorem quiet_only_silences (pf : platform) (fd : Z)
    (evs : list recv_event) (st : counters) (p : proc) :
  let loud := receive_loop pf false fd evs st p in
  let hush := receive_loop pf true fd evs st p in
  fst loud = fst hush /\
  p_stderr (snd loud) = p_stderr (snd hush) /\
  p_errno (snd loud) = p_errno (snd hush) /\
  p_calls (snd loud) = p_calls (snd hush) /\
  p_stdout (snd hush) = p_stdout p /\
  p_stdout (snd loud) = p_stdout p +++ packet_log pf evs st.
Proof.
  cbv zeta.
  destruct (receive_loop_run pf false fd evs st p) as (pl & El & Ol & Rl & Nl & Cl).
  destruct (receive_loop_run pf true fd evs st p) as (ph & Eh & Oh & Rh & Nh & Ch).
  rewrite El, Eh. cbn [fst snd].
  rewrite Rl, Rh, Nl, Nh, Cl, Ch, Oh, Ol, append_nil_r.
  repeat split.
Qed.

(** X2.  After any receives, failed ones too, [packets] is the number of
    calls of [recvfrom] and [sumsize] the sum of what they returned,
    both as [size_t] values: reduced modulo [2 ^ size_bits]. *)
Theorem counters_are_size_t_sums (pf : platform) (q : bool) (fd : Z)
    (evs : list recv_event) (sin0 : sockaddr_in) (p : proc) :
  exists st,
    fst (receive_loop pf q fd evs
           {| packets := 0; sumsize := 0; sin := sin0 |} p) = inl st /\
    packets st = to_size_t pf (Z.of_nat (List.length evs)) /\
    sumsize st = to_size_t pf (Zsum (map returned evs)).
Proof.
  eexists. split; [apply receive_loop_tally|].
  apply (tally_counters pf evs {| packets := 0; sumsize := 0; sin := sin0 |});
    reflexivity.
Qed.

(** After the three calls before the loop have succeeded, the session is
    the loop, the receive that the signal interrupts, and what stands at
    [quit]. *)
Lemma session_after_setup pf w c fd p :
  setup_failure w c = None ->
  session pf w c fd p =
  bind (receive_loop pf (quiet c) fd (w_recv w)
          {| packets := 0; sumsize := 0; sin := w_stack_sin w |})
       (fun st => called (c_recvfrom fd) ;;
                  printf (summary_line (quit_counters pf w st)) ;;
                  close fd ;; ret 0)
       (did (c_setitimer (timeout c))
          (did (c_sigaction SIGINT) (did (c_sigaction SIGALRM) p))).
Proof.
  intros Hs. unfold setup_failure in Hs.
  destruct (w_sigaction w SIGALRM) eqn:Ea; [discriminate|].
  destruct (w_sigaction w SIGINT) eqn:Ei; [discriminate|].
  destruct (w_setitimer w (timeout c)) eqn:Et; [discriminate|].
  unfold session, sigaction, setitimer, called, ret, bind.
  rewrite Ea, Ei, Et. cbn [Z.eqb Pos.eqb].
  destruct (receive_loop pf (quiet c) fd (w_recv w) _ _) as [[st|a] p1];
    reflexivity.
Qed.

(** The session when the three calls succeed: status, standard output
    and calls. *)
Lemma session_success_run pf w c fd p :
  setup_failure w c = None ->
  exists p',
    session pf w c fd p = (inl 0, p') /\
    p_stdout p' =
      p_stdout p +++
      (if quiet c then ""
       else packet_log pf (w_recv w)
              {| packets := 0; sumsize := 0; sin := w_stack_sin w |}) +++
      summary_line
        (quit_counters pf w
           (tally pf (w_recv w)
              {| packets := 0; sumsize := 0; sin := w_stack_sin w |})) /\
    p_stderr p' = p_stderr p /\
    p_calls p' =
      p_calls p ++
      [c_sigaction SIGALRM; c_sigaction SIGINT; c_setitimer (timeout c)] ++
      repeat (c_recvfrom fd) (S (List.length (w_recv w))) ++ [c_close fd].
Proof.
  intros Hs. rewrite session_after_setup by assumption. unfold bind at 1.
  destruct (receive_loop_run pf (quiet c) fd (w_recv w)
              {| packets := 0; sumsize := 0; sin := w_stack_sin w |}
              (did (c_setitimer (timeout c))
                 (did (c_sigaction SIGINT) (did (c_sigaction SIGALRM) p))))
    as (p1 & E & O & R & _ & C).
  rewrite E. unfold called, printf, close, ret, bind.
  eexists. split; [reflexivity|].
  cbn [p_stdout p_stderr p_calls wrote did]. rewrite O, R, C.
  cbn [p_stdout p_stderr p_calls did].
  split; [now rewrite append_assoc|]. split; [reflexivity|].
  cbn [repeat]. rewrite repeat_cons. now rewrite <- !app_assoc.
Qed.

(** The session when one of the three calls fails: status and streams. *)
Lemma session_failure_run pf w c fd p what e :
  setup_failure w c = Some (what, e) ->
  exists p',
    session pf w c fd p = (inr (Exited 1), p') /\
    p_stdout p' = p_stdout p /\
    p_stderr p' = p_stderr p +++ err_text w what e.
Proof.
  unfold setup_failure. intros Hs.
  unfold session, sigaction, setitimer, called, set_errno, ret,
    err, get_errno, eprintf, exit, bind.
  destruct (w_sigaction w SIGALRM) eqn:Ea.
  { injection Hs as <- <-. eexists. split; [reflexivity|]. split; reflexivity. }
  destruct (w_sigaction w SIGINT) eqn:Ei.
  { injection Hs as <- <-. eexists. split; [reflexivity|]. split; reflexivity. }
  destruct (w_setitimer w (timeout c)) eqn:Et; [|discriminate].
  injection Hs as <- <-. eexists. split; [reflexivity|]. split; reflexivity.
Qed.

(** X3.  When the two handlers are installed and the timer is set, the
    session ends with status 0 whichever signal arrives: standard output
    gets the lines of the loop (none in quiet mode) and then, once, the
    summary of the values [packets] and [sumsize] hold at [quit], which
    are whatever the implementation leaves there after the jump; the
    error stream is left alone; and the calls are the two [sigaction],
    [setitimer] with the configured timeout, one [recvfrom] on the
    socket per event and one more that the signal interrupts, and, last,
    [close] of the socket. *)
Theorem session_ends_with_summary (pf : platform) (w : world)
    (c : options) (fd : Z) (p : proc) :
  setup_failure w c = None ->
  let st0 := {| packets := 0; sumsize := 0; sin := w_stack_sin w |} in
  let st := tally pf (w_recv w) st0 in
  let v := w_at_quit w (packets st, sumsize st) in
  exists p',
    session pf w c fd p = (inl 0, p') /\
    p_stdout p' =
      p_stdout p +++
      (if quiet c then "" else packet_log pf (w_recv w) st0) +++
      Libc.nl +++ Libc.decimal (to_size_t pf (fst v)) +++ " packets (" +++
      Libc.decimal (to_size_t pf (snd v)) +++ " byte) received." +++
      Libc.nl /\
    p_stderr p' = p_stderr p /\
    p_calls p' =
      p_calls p ++
      [c_sigaction SIGALRM; c_sigaction SIGINT; c_setitimer (timeout c)] ++
      repeat (c_recvfrom fd) (List.length (w_recv w)) ++
      [c_recvfrom fd; c_close fd].
Proof.
  intros Hs st0 st v.
  rewrite session_after_setup by assumption. unfold bind at 1.
  destruct (receive_loop_run pf (quiet c) fd (w_recv w) st0
              (did (c_setitimer (timeout c))
                 (did (c_sigaction SIGINT) (did (c_sigaction SIGALRM) p))))
    as (p1 & E & O & R & _ & C).
  fold st0. rewrite E. unfold called, printf, close, ret, bind.
  eexists. split; [reflexivity|].
  cbn [p_stdout p_stderr p_calls wrote did]. rewrite O, R, C.
  cbn [p_stdout p_stderr p_calls did].
  split; [|split; [reflexivity|]].
  - rewrite append_assoc. reflexivity.
  - now rewrite <- !app_assoc.
Qed.

(** X4.  When one of the three calls before the loop fails, the session
    ends with status 1 and the message of [err] for the first that
    fails; nothing is written to standard output, and the program
    neither receives nor closes the socket. *)
Theorem session_setup_failure (pf : platform) (w : world)
    (c : options) (fd : Z) (p : proc) (what e : string) :
  setup_failure w c = Some (what, e) ->
  exists p' t,
    session pf w c fd p = (inr (Exited 1), p') /\
    p_stdout p' = p_stdout p /\
    p_stderr p' = p_stderr p +++ err_text w what e /\
    p_calls p' = p_calls p ++ t /\
    ~ In (c_recvfrom fd) t /\ ~ In (c_close fd) t.
Proof.
  unfold setup_failure. intros Hs.
  unfold session, sigaction, setitimer, called, set_errno, ret,
    err, get_errno, eprintf, exit, bind.
  destruct (w_sigaction w SIGALRM) eqn:Ea.
  { injection Hs as <- <-. cbn [Z.eqb].
    eexists. exists [c_sigaction SIGALRM]. split; [reflexivity|].
    cbn. repeat split; intros [H|[]]; discriminate. }
  destruct (w_sigaction w SIGINT) eqn:Ei.
  { injection Hs as <- <-. cbn [Z.eqb].
    eexists. exists [c_sigaction SIGALRM; c_sigaction SIGINT].
    split; [reflexivity|].
    cbn. rewrite <- app_assoc.
    repeat split; intros [H|[H|[]]]; discriminate. }
  destruct (w_setitimer w (timeout c)) eqn:Et; [|discriminate].
  injection Hs as <- <-. cbn [Z.eqb].
  eexists.
  exists [c_sigaction SIGALRM; c_sigaction SIGINT; c_setitimer (timeout c)].
  split; [reflexivity|].
  cbn. rewrite <- !app_assoc.
  repeat split; intros [H|[H|[H|[]]]]; discriminate.
Qed.

(** ** The exit status and the two streams *)

Lemma append_nonempty (a b : string) : b <> "" -> a +++ b <> "".
Proof. destruct a; simpl; [auto|discriminate]. Qed.

Lemma errx_text_nonempty w msg : errx_text w msg <> "".
Proof. unfold errx_text. apply append_nonempty. discriminate. Qed.

Lemma err_text_nonempty w msg e : err_text w msg e <> "".
Proof. unfold err_text. apply append_nonempty. discriminate. Qed.

Lemma silent_ret {A} (a : A) : silent (ret a).
Proof. intros p Hp. exact Hp. Qed.

Lemma silent_undefined {A} : silent (@undefined A).
Proof. intros p Hp. exact Hp. Qed.

Lemma silent_bind {A B} (m : M A) (f : A -> M B) :
  silent m -> (forall a, silent (f a)) -> silent (bind m f).
Proof.
  intros Hm Hf p Hp. unfold bind. specialize (Hm p Hp).
  destruct (m p) as [[a|[s|]] p']; [now apply Hf|exact Hm|exact Hm].
Qed.

Lemma silent_called c : silent (called c).
Proof. intros p Hp. exact Hp. Qed.

Lemma silent_eprintf s : silent (eprintf s).
Proof. intros p Hp. exact Hp. Qed.

Lemma silent_set_errno e : silent (set_errno e).
Proof. intros p Hp. exact Hp. Qed.

Lemma silent_errx {A} w msg : silent (@errx w A 1 msg).
Proof.
  intros p Hp. unfold errx, bind, eprintf, exit. cbn.
  repeat split; [exact Hp|]. apply append_nonempty, errx_text_nonempty.
Qed.

Lemma silent_err {A} w msg : silent (@err w A 1 msg).
Proof.
  intros p Hp. unfold err, bind, get_errno, eprintf, exit. cbn.
  repeat split; [exact Hp|]. apply append_nonempty, err_text_nonempty.
Qed.

Lemma silent_usage {A} : silent (@usage A).
Proof.
  intros p Hp. unfold usage, bind, eprintf, exit. cbn.
  repeat split; [exact Hp|]. apply append_nonempty. discriminate.
Qed.

Create HintDb silent.

#[local] Hint Resolve silent_ret silent_undefined silent_called
  silent_eprintf silent_set_errno silent_errx silent_err silent_usage
  : silent.

Lemma silent_option_case pf w o c : silent (option_case pf w o c).
Proof.
  unfold option_case. apply silent_bind; [auto with silent|]. intros _.
  repeat match goal with
         | |- silent (if ?b then _ else _) => destruct b
         end; auto with silent.
Qed.

Lemma silent_option_loop pf w os : forall c, silent (option_loop pf w os c).
Proof.
  induction os as [|o os IH]; intros c; simpl; [auto with silent|].
  apply silent_bind; [apply silent_option_case|exact IH].
Qed.

Lemma silent_operand_switch args : silent (operand_switch args).
Proof. destruct args as [|m [|s [|x args]]]; simpl; auto with silent. Qed.

Lemma silent_configure pf w : silent (configure pf w).
Proof.
  unfold configure. apply silent_bind; [apply silent_option_loop|].
  intros c. apply silent_bind; [apply silent_operand_switch|].
  auto with silent.
Qed.

Lemma silent_group_address w mcast : silent (group_address w mcast).
Proof.
  unfold group_address. apply silent_bind; [auto with silent|]. intros _.
  destruct (w_inet_aton w mcast); auto with silent.
Qed.

Lemma silent_get_inaddr w name : silent (get_inaddr w name).
Proof.
  unfold get_inaddr. apply silent_bind; [auto with silent|]. intros _.
  destruct (w_getifaddrs w) as [res|e].
  - destruct (ifa_loop name res) as [[ifa sa]|]; [|auto with silent].
    apply silent_bind; auto with silent.
  - apply silent_bind; auto with silent.
Qed.

Lemma silent_socket c : silent (socket c).
Proof.
  unfold socket. destruct (k_socket c);
    repeat (apply silent_bind; [auto with silent|intros _]); auto with silent.
Qed.

Lemma silent_sys_bind fd c : silent (sys_bind fd c).
Proof.
  unfold sys_bind. apply silent_bind; [auto with silent|]. intros _.
  destruct (k_bind c); [apply silent_bind|]; auto with silent.
Qed.

Lemma silent_setsockopt fd imr c : silent (setsockopt fd imr c).
Proof.
  unfold setsockopt. apply silent_bind; [auto with silent|]. intros _.
  destruct (k_setsockopt c); [apply silent_bind|]; auto with silent.
Qed.

Lemma silent_candidate_loop imr res :
  forall cause, silent (candidate_loop imr res cause).
Proof.
  induction res as [|c res IH]; intros cause; simpl; [auto with silent|].
  apply silent_bind; [apply silent_socket|]. intros fd.
  destruct (fd =? -1); [apply IH|].
  apply silent_bind; [apply silent_sys_bind|]. intros r.
  destruct (r =? -1).
  { apply silent_bind; [apply silent_called|]. intros _. apply IH. }
  apply silent_bind; [apply silent_setsockopt|]. intros r'.
  destruct (r' =? -1); [|auto with silent].
  apply silent_bind; [apply silent_called|]. intros _. apply IH.
Qed.

Lemma silent_group_socket w imr res : silent (group_socket w imr res).
Proof.
  unfold group_socket. apply silent_bind; [apply silent_candidate_loop|].
  intros [[fd|] [cause|]]; auto with silent;
    apply silent_bind; auto with silent.
Qed.

Lemma reporting_bind {A} (m : M A) (f : A -> M Z) :
  silent m -> (forall a, reporting (f a)) -> reporting (bind m f).
Proof.
  intros Hm Hf p Hp. unfold bind. specialize (Hm p Hp).
  destruct (m p) as [[a|[s|]] p']; [now apply Hf|exact Hm|exact Hm].
Qed.

Lemma reporting_silent_exit (m : M Z) :
  silent m -> (forall p s p', m p <> (inl s, p')) -> reporting m.
Proof.
  intros Hm Hne p Hp. specialize (Hm p Hp). specialize (Hne p).
  destruct (m p) as [[s|[s|]] p']; [now elim (Hne s p')|exact Hm|exact Hm].
Qed.

Lemma reporting_session pf w c fd : reporting (session pf w c fd).
Proof.
  intros p Hp.
  destruct (setup_failure w c) as [[what e]|] eqn:Es.
  - destruct (session_failure_run pf w c fd p what e Es)
      as (p' & E & O & R).
    rewrite E. rewrite O, R.
    repeat split; [exact Hp|]. apply append_nonempty, err_text_nonempty.
  - destruct (session_success_run pf w c fd p Es) as (p' & E & O & _).
    rewrite E. split; [reflexivity|].
    rewrite O, Hp. simpl. eauto.
Qed.

Lemma reporting_join_and_receive pf w c service group :
  reporting (join_and_receive pf w c service group).
Proof.
  unfold join_and_receive. apply reporting_bind.
  { destruct (negb (ifname c =? ""))%string;
      [apply silent_get_inaddr|auto with silent]. }
  intros interface. apply reporting_bind; [auto with silent|]. intros _.
  destruct (w_getaddrinfo w service) as [res|e].
  - apply reporting_bind; [apply silent_group_socket|].
    intros fd. apply reporting_session.
  - apply reporting_silent_exit; [auto with silent|].
    intros p s p'. unfold errx, bind, eprintf, exit. discriminate.
Qed.

Lemma reporting_main pf w : reporting (main pf w).
Proof.
  unfold main. apply reporting_bind; [apply silent_configure|].
  intros cfg. apply reporting_bind; [apply silent_group_address|].
  intros group. apply reporting_join_and_receive.
Qed.

(** X5.  The exit status and the streams agree, whatever the command
    line and the environment: a run that ends with status 0 has the
    summary as the last thing on standard output; every other run that
    ends has status 1, nothing at all on standard output and a message
    on the error stream. *)
Theorem exit_status_and_streams (pf : platform) (w : world) :
  let r := run pf w in
  (fst r = Some 0 /\
   exists log st, p_stdout (snd r) = log +++ summary_line st) \/
  (fst r = Some 1 /\ p_stdout (snd r) = "" /\ p_stderr (snd r) <> "") \/
  (fst r = None /\ p_stdout (snd r) = "").
Proof.
  cbv zeta. unfold run.
  pose proof (reporting_main pf w proc0 eq_refl) as H.
  destruct (main pf w proc0) as [[s|[s|]] p]; cbn [fst snd].
  - destruct H as [-> H]. left. auto.
  - destruct H as [-> H]. right; left. auto.
  - right; right. auto.
Qed.

(** ** What the option loop leaves in the options *)

(** The options after one return of [getopt] that the [switch] lets
    through. *)
Lemma option_case_value pf w o c p c' p' :
  option_case pf w o c p = (inl c', p') ->
  (go_ch o = "i"%char /\
   (Libc.strlen (go_optarg o) < IFNAMSIZ pf)%nat /\
   c' = {| ifname := go_optarg o; quiet := quiet c; timeout := timeout c |}) \/
  (go_ch o = "q"%char /\
   c' = {| ifname := ifname c; quiet := true; timeout := timeout c |}) \/
  (go_ch o = "t"%char /\
   Libc.atoi (go_optarg o) <= 3600 /\
   Libc.fits_int (Libc.atoi (go_optarg o)) = true /\
   c' = {| ifname := ifname c; quiet := quiet c;
           timeout := Libc.atoi (go_optarg o) |}).
Proof.
  unfold option_case, errx, usage, undefined, eprintf, exit, ret, bind.
  destruct (Ascii.eqb_spec (go_ch o) "i") as [Hi|Hi].
  { destruct (Nat.leb_spec (IFNAMSIZ pf) (Libc.strlen (go_optarg o)));
      [discriminate|].
    intros [= <- _]. left. auto. }
  destruct (Ascii.eqb_spec (go_ch o) "q") as [Hq|Hq].
  { intros [= <- _]. right; left. auto. }
  destruct (Ascii.eqb_spec (go_ch o) "t") as [Ht|Ht]; [|discriminate].
  destruct (Libc.fits_int (Libc.atoi (go_optarg o))) eqn:Hfit; [|discriminate].
  destruct (Z.ltb_spec 3600 (Libc.atoi (go_optarg o))); [discriminate|].
  intros [= <- _]. right; right. auto.
Qed.

Lemma option_loop_step pf w o os c p c2 p2 :
  option_loop pf w (o :: os) c p = (inl c2, p2) ->
  exists c1 p1,
    option_case pf w o c p = (inl c1, p1) /\
    option_loop pf w os c1 p1 = (inl c2, p2).
Proof.
  simpl. unfold bind.
  destruct (option_case pf w o c p) as [[c1|a] p1]; [eauto|discriminate].
Qed.

(** X6.  Options that pass the loop are within bounds: the timeout is
    the one the loop started with or is at most 3600 and fits [int];
    the interface name is the one the loop started with or is shorter
    than [IFNAMSIZ], so that it fits the array [ifname] with its NUL;
    and the quiet flag, once set, stays set. *)
Theorem passed_options_are_bounded (pf : platform) (w : world)
    (os : list getopt_ret) (c0 c : options) (p p' : proc) :
  option_loop pf w os c0 p = (inl c, p') ->
  (timeout c = timeout c0 \/
   (timeout c <= 3600 /\ Libc.fits_int (timeout c) = true)) /\
  (ifname c = ifname c0 \/
   (Libc.strlen (ifname c) < IFNAMSIZ pf)%nat) /\
  (quiet c0 = true -> quiet c = true).
Proof.
  revert c0 p. induction os as [|o os IH]; intros c0 p H.
  - injection H as <- _. auto.
  - apply option_loop_step in H. destruct H as (c1 & p1 & H1 & H2).
    destruct (IH c1 p1 H2) as (Ht & Hi & Hq).
    apply option_case_value in H1.
    destruct H1 as [(_ & Hlen & ->)|[(_ & ->)|(_ & Hle & Hfit & ->)]];
      cbn [timeout ifname quiet] in *.
    + split; [exact Ht|]. split; [|exact Hq].
      destruct Hi as [->|Hi]; auto.
    + split; [exact Ht|]. split; [exact Hi|]. intros _. now apply Hq.
    + split; [|split; [exact Hi|exact Hq]].
      destruct Ht as [->|Ht]; auto.
Qed.

(** X7.  Among repeated options the last one counts: after the loop the
    interface name is the argument of the last [-i], the timeout is what
    [atoi] reads from the argument of the last [-t], each as the loop
    started when the option is absent, and the program is quiet when it
    started quiet or some option is [-q]. *)
Theorem last_option_wins (pf : platform) (w : world)
    (os : list getopt_ret) (c0 c : options) (p p' : proc) :
  option_loop pf w os c0 p = (inl c, p') ->
  ifname c =
    match last_optarg "i" os with Some a => a | None => ifname c0 end /\
  timeout c =
    match last_optarg "t" os with
    | Some a => Libc.atoi a
    | None => timeout c0
    end /\
  quiet c = (quiet c0 || existsb (fun o => Ascii.eqb (go_ch o) "q") os)%bool.
Proof.
  revert c0 p. induction os as [|o os IH]; intros c0 p H.
  - injection H as <- _. simpl. now rewrite orb_false_r.
  - apply option_loop_step in H. destruct H as (c1 & p1 & H1 & H2).
    destruct (IH c1 p1 H2) as (Hi & Ht & Hq).
    rewrite Hi, Ht, Hq. clear Hi Ht Hq IH H2.
    apply option_case_value in H1.
    cbn [last_optarg existsb].
    destruct H1 as [(Hc & _ & ->)|[(Hc & ->)|(Hc & _ & _ & ->)]];
      rewrite Hc; cbn [timeout ifname quiet Ascii.eqb Bool.eqb andb];
      destruct (last_optarg "i" os), (last_optarg "t" os);
      repeat split; auto;
      destruct (quiet c0); reflexivity.
Qed.

(** X8.  The first usage error among the options decides the run: when
    the options before it pass, the program exits with status 1 right
    after the text of that error, whatever options and operands follow
    and whatever the environment would have answered. *)
Theorem first_option_error_ends_the_run (pf : platform) (w : world)
    (os os' : list getopt_ret) (o : getopt_ret) (c : options) (p : proc)
    (msg : string) :
  w_getopt w = os ++ o :: os' ->
  option_loop pf w os defaults proc0 = (inl c, p) ->
  option_failure pf w o msg ->
  (go_ch o = "t"%char -> Libc.fits_int (Libc.atoi (go_optarg o)) = true) ->
  main pf w proc0 =
    (inr (Exited 1), complained msg (complained (go_diag o) p)) /\
  p_calls p = [] /\ p_stdout p = "".
Proof.
  intros Hw Hos Hf Hfit. split.
  - apply main_stops_with_configure. unfold configure, bind.
    rewrite Hw, option_loop_app, Hos. cbn [option_loop]. unfold bind.
    now rewrite (option_failure_exits pf w o c p msg Hf Hfit).
  - destruct (option_loop_cases pf w os defaults proc0)
      as [(c' & s & E)|[(x & m & s & _ & _ & E)|(x & q & _ & _ & _ & E)]];
      rewrite E in Hos; inversion Hos; subst; auto.
Qed.

(** ** Which interface entry, and when the lookup fails *)

Lemma ifa_loop_skips name pre : forall rest,
  c_string name = true ->
  Forall (fun x => c_string (ifa_name x) = true) pre ->
  (forall x, In x pre -> ifa_name x = name -> ipv4_of x = None) ->
  ifa_loop name (pre ++ rest) = ifa_loop name rest.
Proof.
  induction pre as [|x pre IH]; intros rest Hn Hc Hno; [reflexivity|].
  inversion Hc as [|? ? Hx Hpre]; subst.
  assert (IH' : ifa_loop name (pre ++ rest) = ifa_loop name rest).
  { apply IH; auto. intros y Hy. apply Hno. now right. }
  specialize (Hno x (or_introl eq_refl)). unfold ipv4_of in Hno.
  cbn [app ifa_loop].
  destruct (ifa_addr x) as [sa|]; [|exact IH'].
  destruct (sa_family sa =? Libc.AF_INET); cbn [negb]; [|exact IH'].
  destruct (Z.eqb_spec (Libc.strcmp name (ifa_name x)) 0) as [Hz|Hz];
    [|exact IH'].
  apply strcmp_zero in Hz; auto.
  symmetry in Hz. specialize (Hno Hz). discriminate.
Qed.

(** X9.  [get_inaddr] takes the first entry of the list that has the
    name and carries an IPv4 address: entries before it that have
    another name, or the name without an IPv4 address, are passed over,
    and entries after it are not looked at.  The list is then freed. *)
Theorem get_inaddr_first_match (w : world) (name : string)
    (pre post : list ifaddrs) (ifa : ifaddrs) (a : Libc.in_addr) (p : proc) :
  w_getifaddrs w = inl (pre ++ ifa :: post) ->
  c_string name = true ->
  Forall (fun x => c_string (ifa_name x) = true) pre ->
  (forall x, In x pre -> ifa_name x = name -> ipv4_of x = None) ->
  ifa_name ifa = name ->
  ipv4_of ifa = Some a ->
  get_inaddr w name p = (inl a, did c_freeifaddrs (did c_getifaddrs p)).
Proof.
  intros Hw Hn Hc Hno Hname Hv.
  unfold get_inaddr, called, ret, bind. rewrite Hw.
  rewrite ifa_loop_skips by assumption.
  unfold ipv4_of in Hv. cbn [ifa_loop].
  destruct (ifa_addr ifa) as [sa|]; [|discriminate].
  destruct (sa_family sa =? Libc.AF_INET); [|discriminate].
  injection Hv as <-. cbn [negb].
  rewrite Hname, strcmp_refl. reflexivity.
Qed.

(** X10.  An interface that is named with [-i] and not found ends the
    run before the service is resolved and before any socket is made:
    after a group that parses, the program calls [getifaddrs] and exits
    with status 1 and the diagnostic of [errx]. *)
Theorem unknown_interface_ends_before_resolution (pf : platform) (w : world)
    (c : options) (mcast service : string) (p : proc)
    (group : Libc.in_addr) (res : list ifaddrs) :
  configure pf w proc0 = (inl (c, (mcast, service)), p) ->
  w_inet_aton w mcast = Some group ->
  ifname c <> "" ->
  w_getifaddrs w = inl res ->
  c_string (ifname c) = true ->
  Forall (fun x => c_string (ifa_name x) = true) res ->
  (forall x, In x res -> ifa_name x = ifname c -> ipv4_of x = None) ->
  main pf w proc0 =
    (inr (Exited 1),
     complained
       (errx_text w (ifname c +++ ": interface does not exist or is invalid"))
       (did c_getifaddrs (did (c_inet_aton mcast) p))).
Proof.
  intros Hcfg Hg Hif Hres Hn Hc Hno.
  assert (Hloop : ifa_loop (ifname c) res = None).
  { rewrite <- (app_nil_r res). now rewrite ifa_loop_skips. }
  unfold main, bind at 1. rewrite Hcfg. cbn [fst snd].
  unfold group_address, called, ret, bind at 1. unfold bind at 1.
  rewrite Hg.
  unfold join_and_receive, bind at 1.
  destruct (String.eqb_spec (ifname c) "") as [He|_]; [contradiction|].
  cbn [negb]. unfold get_inaddr, called, errx, eprintf, exit, bind.
  now rewrite Hres, Hloop.
Qed.

(** ** Descriptors during the loop over the candidates *)

Lemma candidate_loop_calls imr res : forall cause p,
  p_calls (snd (candidate_loop imr res cause p)) =
  p_calls p ++ flat_map (attempt_calls imr) (tried_candidates res).
Proof.
  induction res as [|c res IH]; intros cause p.
  - simpl. now rewrite app_nil_r.
  - cbn [tried_candidates]. destruct (failure c) as [[op e]|] eqn:Ef.
    + rewrite candidate_fails by (unfold fails; congruence).
      rewrite IH. cbn [flat_map tried p_calls]. now rewrite app_assoc.
    + destruct (candidate_succeeds imr c res cause p Ef) as (n & _ & E).
      rewrite E. cbn [snd flat_map tried p_calls]. now rewrite app_nil_r.
Qed.

Lemma attempt_prefix_open imr c k :
  (List.length (open_fds (firstn k (attempt_calls imr c)) []) <= 1)%nat.
Proof.
  unfold attempt_calls.
  destruct (k_socket c) as [n|e].
  - destruct (k_bind c), (k_setsockopt c);
      do 5 (try (destruct k as [|k];
                 [repeat (cbn [firstn open_fds app Z.eqb];
                          rewrite ?fd_is_not_minus_one, ?remove_only);
                  cbn [List.length]; lia|]));
      repeat (cbn [firstn open_fds app Z.eqb];
              rewrite ?fd_is_not_minus_one, ?remove_only);
      cbn [List.length]; lia.
  - destruct k as [|k]; cbn; [lia|]. destruct k; cbn; lia.
Qed.

Lemma tried_prefix_open imr res : forall k,
  (List.length
     (open_fds (firstn k (flat_map (attempt_calls imr) (tried_candidates res)))
        []) <= 1)%nat.
Proof.
  induction res as [|c res IH]; intros k.
  - destruct k; cbn; auto.
  - cbn [tried_candidates]. destruct (failure c) as [[op e]|] eqn:Ef.
    + cbn [flat_map]. rewrite firstn_app, open_fds_app.
      destruct (Nat.le_gt_cases k (List.length (attempt_calls imr c)))
        as [Hk|Hk].
      * replace (k - List.length (attempt_calls imr c))%nat with 0%nat by lia.
        cbn [firstn open_fds]. apply attempt_prefix_open.
      * rewrite firstn_all2 with (l := attempt_calls imr c) by lia.
        rewrite failed_attempt_closed by (unfold fails; congruence).
        apply IH.
    + cbn [flat_map]. rewrite app_nil_r. apply attempt_prefix_open.
Qed.

(** X11.  The loop over the candidates never holds two sockets at once:
    after every call it makes, whatever the candidates and their
    outcomes, at most one descriptor it got from [socket] is still
    open. *)
Theorem one_socket_at_a_time (imr : ip_mreq) (res : list candidate)
    (cause : option string) (p : proc) :
  exists t,
    p_calls (snd (candidate_loop imr res cause p)) = p_calls p ++ t /\
    forall k, (List.length (open_fds (firstn k t) []) <= 1)%nat.
Proof.
  exists (flat_map (attempt_calls imr) (tried_candidates res)).
  split; [apply candidate_loop_calls|apply tried_prefix_open].
Qed.

(** ** The lines of the output *)

Lemma newlines_app a b : newlines (a +++ b) = (newlines a + newlines b)%nat.
Proof. induction a as [|c a IH]; simpl; [reflexivity|]. rewrite IH. lia. Qed.

Lemma newlines_digits d : newlines (NilEmpty.string_of_uint d) = 0%nat.
Proof. induction d; simpl; auto. Qed.

Lemma newlines_decimal z : newlines (Libc.decimal z) = 0%nat.
Proof.
  unfold Libc.decimal, NilZero.string_of_uint.
  destruct (N.to_uint (Z.to_N z)); try apply newlines_digits. reflexivity.
Qed.

Lemma newlines_inet_ntoa a : newlines (Libc.inet_ntoa a) = 0%nat.
Proof.
  unfold Libc.inet_ntoa. rewrite !newlines_app, !newlines_decimal.
  reflexivity.
Qed.

Lemma newlines_packet_line pf from received :
  newlines (packet_line pf from received) = 1%nat.
Proof.
  unfold packet_line.
  rewrite !newlines_app, !newlines_decimal, newlines_inet_ntoa.
  reflexivity.
Qed.

Lemma newlines_packet_log pf evs : forall st,
  newlines (packet_log pf evs st) = List.length evs.
Proof.
  induction evs as [|ev evs IH]; intros st; [reflexivity|].
  cbn [packet_log List.length]. cbv zeta.
  now rewrite newlines_app, newlines_packet_line, IH.
Qed.

Lemma newlines_summary_line st : newlines (summary_line st) = 2%nat.
Proof.
  unfold summary_line. rewrite !newlines_app, !newlines_decimal.
  reflexivity.
Qed.

Lemma packet_line_text pf from received :
  packet_line pf from received = packet_text pf from received +++ Libc.nl.
Proof. unfold packet_line, packet_text. now rewrite !append_assoc. Qed.

Lemma packet_log_lines pf evs : forall st,
  packet_log pf evs st = terminated_lines (packet_texts pf evs st).
Proof.
  induction evs as [|ev evs IH]; intros st; [reflexivity|].
  cbn [packet_log packet_texts terminated_lines]. cbv zeta.
  now rewrite packet_line_text, IH, append_assoc.
Qed.

Lemma packet_texts_length pf evs : forall st,
  List.length (packet_texts pf evs st) = List.length evs.
Proof.
  induction evs as [|ev evs IH]; intros st; [reflexivity|].
  cbn [packet_texts List.length]. cbv zeta. now rewrite IH.
Qed.

Lemma newlines_packet_text pf from received :
  newlines (packet_text pf from received) = 0%nat.
Proof.
  unfold packet_text.
  rewrite !newlines_app, !newlines_decimal, newlines_inet_ntoa.
  reflexivity.
Qed.

Lemma packet_texts_no_newline pf evs : forall st,
  Forall (fun l => newlines l = 0%nat) (packet_texts pf evs st).
Proof.
  induction evs as [|ev evs IH]; intros st; [constructor|].
  cbn [packet_texts]. cbv zeta. constructor; [|apply IH].
  apply newlines_packet_text.
Qed.

(** X12.  A session that runs adds to standard output, in this order:
    one line for each return of [recvfrom], none in quiet mode, each the
    text of a packet line without any new line inside; then an empty
    line; then the one line of the summary. *)
Theorem session_output_lines (pf : platform) (w : world)
    (c : options) (fd : Z) (p : proc) :
  setup_failure w c = None ->
  let st0 := {| packets := 0; sumsize := 0; sin := w_stack_sin w |} in
  let lines := if quiet c then [] else packet_texts pf (w_recv w) st0 in
  let q := quit_counters pf w (tally pf (w_recv w) st0) in
  let summary :=
    Libc.decimal (packets q) +++ " packets (" +++
    Libc.decimal (sumsize q) +++ " byte) received." in
  exists p',
    session pf w c fd p = (inl 0, p') /\
    p_stdout p' =
      p_stdout p +++ terminated_lines lines +++ Libc.nl +++
      summary +++ Libc.nl /\
    List.length lines = (if quiet c then 0 else List.length (w_recv w))%nat /\
    Forall (fun l => newlines l = 0%nat) lines /\
    newlines summary = 0%nat.
Proof.
  intros Hs st0 lines q summary.
  destruct (session_success_run pf w c fd p Hs) as (p' & E & O & _).
  exists p'. split; [exact E|]. split; [|split; [|split]].
  - assert (Hsum : summary_line q = Libc.nl +++ summary +++ Libc.nl).
    { unfold summary_line. subst summary. now rewrite !append_assoc. }
    rewrite O. fold st0. fold q. rewrite Hsum. subst lines.
    destruct (quiet c); [reflexivity|]. now rewrite packet_log_lines.
  - subst lines. destruct (quiet c); [reflexivity|].
    apply packet_texts_length.
  - subst lines. destruct (quiet c); [constructor|].
    apply packet_texts_no_newline.
  - subst summary. rewrite !newlines_app, !newlines_decimal. reflexivity.
Qed.

(** ** Descriptors at the end of a run *)

Lemma configure_calls pf w p x p' :
  configure pf w p = (inl x, p') -> p_calls p' = p_calls p.
Proof.
  unfold configure, bind.
  destruct (option_loop_cases pf w (w_getopt w) defaults p)
    as [(c & s & E)|[(o & msg & s & _ & _ & E)|(o & q & _ & _ & _ & E)]];
    rewrite E; [|discriminate|discriminate].
  destruct (operand_switch_cases (w_operands w) (complained s p))
    as [(_ & ms & E')|(_ & E')]; rewrite E'; [|discriminate].
  intros [= _ <-]. reflexivity.
Qed.

Lemma group_address_calls w mcast p a p' :
  group_address w mcast p = (inl a, p') ->
  p_calls p' = p_calls p ++ [c_inet_aton mcast].
Proof.
  unfold group_address, called, errx, eprintf, exit, ret, bind.
  destruct (w_inet_aton w mcast); [|discriminate].
  intros [= _ <-]. reflexivity.
Qed.

Lemma get_inaddr_calls w name p a p' :
  get_inaddr w name p = (inl a, p') ->
  p_calls p' = p_calls p ++ [c_getifaddrs; c_freeifaddrs].
Proof.
  unfold get_inaddr, called, set_errno, err, get_errno, errx, eprintf, exit,
    ret, bind.
  destruct (w_getifaddrs w) as [res|e]; [|discriminate].
  destruct (ifa_loop name res) as [[ifa sa]|]; [|discriminate].
  intros [= _ <-]. cbn. now rewrite <- app_assoc.
Qed.

(** The descriptor the loop over the candidates returns is the one its
    calls leave open. *)
Lemma candidate_loop_open imr res : forall cause p fd cause' p',
  candidate_loop imr res cause p = (inl (Some fd, cause'), p') ->
  open_fds (flat_map (attempt_calls imr) (tried_candidates res)) [] = [fd].
Proof.
  induction res as [|c res IH]; intros cause p fd cause' p' H.
  - discriminate.
  - cbn [tried_candidates]. destruct (failure c) as [[op e]|] eqn:Ef.
    + assert (Hf : fails c) by (unfold fails; congruence).
      rewrite candidate_fails in H by assumption.
      cbn [flat_map]. rewrite open_fds_app, failed_attempt_closed by assumption.
      eapply IH. exact H.
    + destruct (candidate_succeeds imr c res cause p Ef) as (n & Hn & E).
      rewrite E in H. injection H as <- _ _.
      cbn [flat_map]. rewrite app_nil_r.
      unfold attempt_calls, failure in *. rewrite Hn in *.
      destruct (k_bind c); [discriminate|].
      destruct (k_setsockopt c); [discriminate|].
      cbn. now rewrite fd_is_not_minus_one.
Qed.

Lemma group_socket_open w imr res p fd p' :
  group_socket w imr res p = (inl fd, p') ->
  exists t, p_calls p' = p_calls p ++ t ++ [c_freeaddrinfo] /\
            open_fds t [] = [fd].
Proof.
  unfold group_socket, bind.
  pose proof (candidate_loop_calls imr res None p) as Hc.
  pose proof (candidate_loop_open imr res None p) as Ho.
  destruct (candidate_loop imr res None p) as [[[[fd'|] cause]|a] p1];
    cbn [snd] in Hc.
  - unfold called, ret, bind. intros [= <- <-].
    exists (flat_map (attempt_calls imr) (tried_candidates res)).
    split; [|eapply Ho; reflexivity].
    cbn. rewrite Hc. now rewrite <- app_assoc.
  - destruct cause; unfold err, get_errno, eprintf, exit, undefined, bind;
      discriminate.
  - discriminate.
Qed.

Lemma open_fds_recvfrom fd n acc :
  open_fds (repeat (c_recvfrom fd) n) acc = acc.
Proof. induction n as [|n IH]; [reflexivity|exact IH]. Qed.

Lemma session_calls pf w c fd p s p' :
  session pf w c fd p = (inl s, p') ->
  p_calls p' =
    p_calls p ++
    [c_sigaction SIGALRM; c_sigaction SIGINT; c_setitimer (timeout c)] ++
    repeat (c_recvfrom fd) (S (List.length (w_recv w))) ++ [c_close fd].
Proof.
  intros H.
  destruct (setup_failure w c) as [[what e]|] eqn:Es.
  - destruct (session_failure_run pf w c fd p what e Es) as (q & E & _).
    congruence.
  - destruct (session_success_run pf w c fd p Es) as (q & E & _ & _ & C).
    rewrite E in H. injection H as _ <-. exact C.
Qed.

Lemma main_returns_zero_closed pf w s p :
  main pf w proc0 = (inl s, p) -> open_fds (p_calls p) [] = [].
Proof.
  unfold main, bind at 1.
  destruct (configure pf w proc0) as [[cfg|a] p1] eqn:E1; [|discriminate].
  apply configure_calls in E1. unfold bind at 1.
  destruct (group_address w (fst (snd cfg)) p1) as [[g|a] p2] eqn:E2;
    [|discriminate].
  apply group_address_calls in E2.
  unfold join_and_receive, bind at 1.
  assert (Hi : forall a p3,
            (if negb (ifname (fst cfg) =? "")%string
             then get_inaddr w (ifname (fst cfg))
             else ret Libc.INADDR_ANY) p2 = (inl a, p3) ->
            open_fds (p_calls p3) [] = []).
  { intros a p3. destruct (negb (ifname (fst cfg) =? "")%string).
    - intros H. apply get_inaddr_calls in H.
      rewrite H, E2, E1. reflexivity.
    - intros [= _ <-]. rewrite E2, E1. reflexivity. }
  destruct ((if negb (ifname (fst cfg) =? "")%string
             then get_inaddr w (ifname (fst cfg))
             else ret Libc.INADDR_ANY) p2) as [[a|a] p3] eqn:E3;
    [|discriminate].
  specialize (Hi a p3 eq_refl).
  unfold called, bind at 1.
  destruct (w_getaddrinfo w (snd (snd cfg))) as [res|e].
  - unfold bind at 1.
    destruct (group_socket w _ res (did (c_getaddrinfo (snd (snd cfg))) p3))
      as [[fd|x] p4] eqn:E4; [|discriminate].
    apply group_socket_open in E4. destruct E4 as (t & C4 & O4).
    intros H. apply session_calls in H.
    rewrite H, C4. cbn [p_calls did].
    rewrite !open_fds_app, Hi. cbn [open_fds].
    rewrite O4. cbn [open_fds].
    rewrite open_fds_recvfrom. cbn [open_fds].
    apply remove_only.
  - unfold errx, eprintf, exit, bind. discriminate.
Qed.

(** X13.  A run that ends with status 0 has closed every descriptor it
    got from [socket]. *)
Theorem clean_exit_leaves_no_socket (pf : platform) (w : world) :
  fst (run pf w) = Some 0 ->
  open_fds (p_calls (snd (run pf w))) [] = [].
Proof.
  unfold run.
  pose proof (reporting_main pf w proc0 eq_refl) as H.
  destruct (main pf w proc0) as [[s|[s|]] p] eqn:E; cbn [fst snd].
  - intros _. eapply main_returns_zero_closed. exact E.
  - destruct H as [-> _]. discriminate.
  - discriminate.
Qed.

(** ** The further properties at concrete inputs *)

(** X3 on two receives, of which the second fails, ended by the timer. *)
Lemma session_ends_with_summary_witness :
  exists p',
    session lp64_le
      (with_recv quiet_host
         [Datagram (dotted 192 0 2 1) 5000 10; RecvError "ENOBUFS"] SIGALRM)
      defaults 3 proc0 = (inl 0, p').
Proof.
  destruct (session_ends_with_summary lp64_le
              (with_recv quiet_host
                 [Datagram (dotted 192 0 2 1) 5000 10; RecvError "ENOBUFS"]
                 SIGALRM)
              defaults 3 proc0 eq_refl) as (p' & E & _).
  exists p'. exact E.
Defined.

(** X4 on a timeout of -5 and a kernel that refuses it. *)
Lemma session_setup_failure_witness :
  exists p',
    session lp64_le strict_timer_host
      {| ifname := ""; quiet := false; timeout := -5 |} 3 proc0 =
    (inr (Exited 1), p') /\
    p_stderr p' = "mc4sv: setitimer: EINVAL" +++ Libc.nl.
Proof.
  destruct (session_setup_failure lp64_le strict_timer_host
              {| ifname := ""; quiet := false; timeout := -5 |} 3 proc0
              "setitimer" "EINVAL" eq_refl) as (p' & t & E & _ & R & _).
  exists p'. split; [exact E|exact R].
Defined.

(** X6 on [-i eth0 -t 90 -q]. *)
Lemma passed_options_are_bounded_witness :
  (90 = 0 \/ (90 <= 3600 /\ Libc.fits_int 90 = true)) /\
  ("eth0" = "" \/ (Libc.strlen "eth0" < 16)%nat) /\
  (false = true -> true = true).
Proof.
  refine (passed_options_are_bounded lp64_le quiet_host
            [opt "i" "eth0"; opt "t" "90"; opt "q" ""] defaults
            {| ifname := "eth0"; quiet := true; timeout := 90 |}
            proc0 proc0 _).
  vm_compute. reflexivity.
Defined.

(** X7 on [-t 5 -i lo -t 7 -i eth0]. *)
Lemma last_option_wins_witness :
  "eth0" = "eth0" /\ 7 = Libc.atoi "7" /\ false = false.
Proof.
  refine (last_option_wins lp64_le quiet_host
            [opt "t" "5"; opt "i" "lo"; opt "t" "7"; opt "i" "eth0"] defaults
            {| ifname := "eth0"; quiet := false; timeout := 7 |}
            proc0 proc0 _).
  vm_compute. reflexivity.
Defined.

(** X8 on [-q -i <21 characters> -t 99999 a b c]. *)
Lemma first_option_error_ends_the_run_witness :
  main lp64_le
    (with_args quiet_host
       [opt "q" ""; opt "i" "averyveryverylongname"; opt "t" "99999"]
       ["a"; "b"; "c"]) proc0 =
  (inr (Exited 1),
   complained
     (errx_text quiet_host "averyveryverylongname: interface name too long")
     (complained "" proc0)).
Proof.
  refine (proj1 (first_option_error_ends_the_run lp64_le
            (with_args quiet_host
               [opt "q" ""; opt "i" "averyveryverylongname"; opt "t" "99999"]
               ["a"; "b"; "c"])
            [opt "q" ""] [opt "t" "99999"] (opt "i" "averyveryverylongname")
            {| ifname := ""; quiet := true; timeout := 0 |} proc0
            _ eq_refl _ _ _)).
  - vm_compute. reflexivity.
  - refine (long_ifname lp64_le
              (with_args quiet_host
                 [opt "q" ""; opt "i" "averyveryverylongname";
                  opt "t" "99999"] ["a"; "b"; "c"])
              (opt "i" "averyveryverylongname") eq_refl _).
    simpl. lia.
  - simpl. discriminate.
Defined.

(** X9 on the host of [quiet_host]: [eth0] is found at its second
    entry, the first having no IPv4 address. *)
Lemma get_inaddr_first_match_witness :
  get_inaddr quiet_host "eth0" proc0 =
  (inl (dotted 192 0 2 7), did c_freeifaddrs (did c_getifaddrs proc0)).
Proof.
  refine (get_inaddr_first_match quiet_host "eth0"
            [ {| ifa_name := "lo"; ifa_addr := None |};
              {| ifa_name := "lo";
                 ifa_addr := Some {| sa_family := Libc.AF_INET; sin_port := 0;
                                     sin_addr := dotted 127 0 0 1 |} |};
              {| ifa_name := "eth0";
                 ifa_addr := Some {| sa_family := 17; sin_port := 0;
                                     sin_addr := 0 |} |} ]
            []
            {| ifa_name := "eth0";
               ifa_addr := Some {| sa_family := Libc.AF_INET; sin_port := 0;
                                   sin_addr := dotted 192 0 2 7 |} |}
            (dotted 192 0 2 7) proc0 eq_refl eq_refl _ _ eq_refl eq_refl).
  - repeat constructor.
  - intros x [<-|[<-|[<-|[]]]] H; simpl in H;
      first [discriminate H|reflexivity].
Defined.

(** X10 on [-i eth], a name no interface of [quiet_host] has. *)
Lemma unknown_interface_ends_before_resolution_witness :
  main lp64_le (with_args quiet_host [opt "i" "eth"] []) proc0 =
  (inr (Exited 1),
   complained
     (errx_text quiet_host "eth: interface does not exist or is invalid")
     (did c_getifaddrs (did (c_inet_aton "224.0.0.1") proc0))).
Proof.
  refine (unknown_interface_ends_before_resolution lp64_le
            (with_args quiet_host [opt "i" "eth"] [])
            {| ifname := "eth"; quiet := false; timeout := 0 |}
            "224.0.0.1" "discard" proc0 (dotted 224 0 0 1) _
            _ eq_refl _ eq_refl eq_refl _ _).
  - vm_compute. reflexivity.
  - simpl. discriminate.
  - repeat constructor.
  - intros x [<-|[<-|[<-|[<-|[]]]]] H; simpl in H; discriminate H.
Defined.

(** X12 on three datagrams, not in quiet mode. *)
Lemma session_output_lines_witness :
  exists p',
    session lp64_le
      (with_recv quiet_host
         [Datagram (dotted 192 0 2 1) 5000 10;
          Datagram (dotted 192 0 2 1) 5001 0;
          Datagram (dotted 192 0 2 9) 5002 1400] SIGALRM)
      defaults 3 proc0 = (inl 0, p').
Proof.
  destruct (session_output_lines lp64_le
              (with_recv quiet_host
                 [Datagram (dotted 192 0 2 1) 5000 10;
                  Datagram (dotted 192 0 2 1) 5001 0;
                  Datagram (dotted 192 0 2 9) 5002 1400] SIGALRM)
              defaults 3 proc0 eq_refl) as (p' & E & _).
  exists p'. exact E.
Defined.

(** X13 on the default command line. *)
Lemma clean_exit_leaves_no_socket_witness :
  open_fds (p_calls (snd (run lp64_le quiet_host))) [] = [].
Proof.
  refine (clean_exit_leaves_no_socket lp64_le quiet_host _).
  vm_compute. reflexivity.
Defined.

(** ** The group argument, up to the join *)

Lemma tried_after_failures pre : forall rest,
  Forall fails pre ->
  tried_candidates (pre ++ rest) = pre ++ tried_candidates rest.
Proof.
  induction pre as [|c pre IH]; intros rest Hf; [reflexivity|].
  inversion Hf as [|? ? Hc Hpre]; subst.
  cbn [app tried_candidates]. unfold fails in Hc.
  destruct (failure c) as [x|]; [|contradiction].
  now rewrite IH.
Qed.

Lemma join_is_attempted imr cand n :
  k_socket cand = inl n -> k_bind cand = None ->
  In (c_setsockopt (Z.of_nat n) imr) (attempt_calls imr cand).
Proof.
  intros Hs Hb. unfold attempt_calls. rewrite Hs, Hb.
  cbn. right. right. left. reflexivity.
Qed.

Lemma group_socket_keeps_calls w imr res p x :
  In x (p_calls (snd (candidate_loop imr res None p))) ->
  In x (p_calls (snd (group_socket w imr res p))).
Proof.
  unfold group_socket, bind.
  destruct (candidate_loop imr res None p) as [[[[fd|] [cause|]]|a] p1];
    cbn; auto; intros H; apply in_or_app; now left.
Qed.

Lemma session_calls_grow pf w c fd p :
  exists t, p_calls (snd (session pf w c fd p)) = p_calls p ++ t.
Proof.
  destruct (setup_failure w c) as [[what e]|] eqn:Es.
  - unfold setup_failure in Es.
    unfold session, sigaction, setitimer, called, set_errno, ret,
      err, get_errno, eprintf, exit, bind.
    destruct (w_sigaction w SIGALRM).
    { cbn. eexists. reflexivity. }
    destruct (w_sigaction w SIGINT).
    { cbn. rewrite <- app_assoc. eexists. reflexivity. }
    destruct (w_setitimer w (timeout c)); [|discriminate].
    cbn. rewrite <- !app_assoc. eexists. reflexivity.
  - destruct (session_success_run pf w c fd p Es) as (p' & E & _ & _ & C).
    rewrite E. cbn [snd]. rewrite C. eexists. reflexivity.
Qed.

(** C10.  Once configuration is through, the group argument is accepted
    exactly when [inet_aton] parses it, and rejected, with status 1 and
    the diagnostic of [errx], exactly when [inet_aton] does not.  An
    accepted address is handed on as it is, whatever its value, so also
    outside 224.0.0.0/4, with or without [-i]: once the interface is
    chosen and the service resolved, the program goes on to the loop
    over the candidates with that address as the group, and the first
    candidate whose [socket] and [bind] succeed gets the [setsockopt]
    that joins it. *)
Theorem group_is_what_inet_aton_parses (pf : platform) (w : world)
    (c : options) (mcast service : string) (p : proc) :
  configure pf w proc0 = (inl (c, (mcast, service)), p) ->
  let p1 := did (c_inet_aton mcast) p in
  let lookup :=
    if negb (String.eqb (ifname c) "") then get_inaddr w (ifname c)
    else ret Libc.INADDR_ANY in
  (forall a, w_inet_aton w mcast = Some a <->
             group_address w mcast p = (inl a, p1)) /\
  (w_inet_aton w mcast = None <->
   group_address w mcast p =
     (inr (Exited 1),
      complained (errx_text w (mcast +++ ": invalid multicast group")) p1)) /\
  (w_inet_aton w mcast = None ->
   main pf w proc0 =
     (inr (Exited 1),
      complained (errx_text w (mcast +++ ": invalid multicast group")) p1)) /\
  (forall a interface p2 res,
     w_inet_aton w mcast = Some a ->
     lookup p1 = (inl interface, p2) ->
     w_getaddrinfo w service = inl res ->
     let imr := {| imr_multiaddr := a; imr_interface := interface |} in
     main pf w proc0 =
       bind (group_socket w imr res) (session pf w c)
         (did (c_getaddrinfo service) p2) /\
     (forall pre cand post n,
        res = pre ++ cand :: post -> Forall fails pre ->
        k_socket cand = inl n -> k_bind cand = None ->
        In (c_setsockopt (Z.of_nat n) imr) (p_calls (snd (main pf w proc0))))).
Proof.
  intros Hcfg p1 lookup.
  assert (Hmain : main pf w proc0 =
            bind (group_address w mcast)
                 (fun g => join_and_receive pf w c service g) p).
  { unfold main, bind at 1. now rewrite Hcfg. }
  assert (Hga : group_address w mcast p =
            match w_inet_aton w mcast with
            | Some g => (inl g, p1)
            | None =>
                (inr (Exited 1),
                 complained
                   (errx_text w (mcast +++ ": invalid multicast group")) p1)
            end).
  { unfold group_address, bind, called, errx, eprintf, exit, ret.
    destruct (w_inet_aton w mcast); reflexivity. }
  split; [|split; [|split]].
  - intros a. rewrite Hga. destruct (w_inet_aton w mcast) as [g|].
    + split; intros [= ->]; reflexivity.
    + split; discriminate.
  - rewrite Hga. destruct (w_inet_aton w mcast) as [g|].
    + split; discriminate.
    + split; reflexivity.
  - intros Hnone. rewrite Hmain. unfold bind. now rewrite Hga, Hnone.
  - intros a interface p2 res Ha Hlook Hres imr.
    assert (Hrun : main pf w proc0 =
              bind (group_socket w imr res) (session pf w c)
                (did (c_getaddrinfo service) p2)).
    { rewrite Hmain. unfold bind at 1. rewrite Hga, Ha.
      unfold join_and_receive. unfold bind at 1.
      fold lookup. rewrite Hlook.
      unfold called, bind at 1. rewrite Hres. reflexivity. }
    split; [exact Hrun|].
    intros pre cand post n -> Hpre Hs Hb.
    assert (Hin : In (c_setsockopt (Z.of_nat n) imr)
                    (p_calls (snd (group_socket w imr (pre ++ cand :: post)
                                     (did (c_getaddrinfo service) p2))))).
    { apply group_socket_keeps_calls. rewrite candidate_loop_calls.
      apply in_or_app. right. rewrite tried_after_failures by assumption.
      rewrite flat_map_app. apply in_or_app. right.
      cbn [tried_candidates].
      destruct (failure cand); cbn [flat_map]; apply in_or_app; left;
        now apply join_is_attempted. }
    rewrite Hrun. unfold bind.
    destruct (group_socket w imr (pre ++ cand :: post)
                (did (c_getaddrinfo service) p2)) as [[fd|x] p4];
      cbn [snd] in Hin |- *; [|exact Hin].
    destruct (session_calls_grow pf w c fd p4) as [t Ht].
    rewrite Ht. apply in_or_app. now left.
Qed.

(** C10 on [-i eth0] and the unicast address 10.1.2.3. *)
Lemma group_is_what_inet_aton_parses_witness :
  In (c_setsockopt 3 {| imr_multiaddr := dotted 10 1 2 3;
                        imr_interface := dotted 192 0 2 7 |})
     (p_calls (snd (main lp64_le
                      (with_args quiet_host [opt "i" "eth0"] ["10.1.2.3"])
                      proc0))).
Proof.
  refine (proj2 (proj2 (proj2 (proj2
            (group_is_what_inet_aton_parses lp64_le
               (with_args quiet_host [opt "i" "eth0"] ["10.1.2.3"])
               {| ifname := "eth0"; quiet := false; timeout := 0 |}
               "10.1.2.3" "discard" proc0 _)))
            (dotted 10 1 2 3) (dotted 192 0 2 7)
            (did c_freeifaddrs
               (did c_getifaddrs (did (c_inet_aton "10.1.2.3") proc0)))
            [joined] eq_refl _ eq_refl)
            [] joined [] 3%nat eq_refl _ eq_refl eq_refl).
  - vm_compute. reflexivity.
  - vm_compute. reflexivity.
  - constructor.
Defined.
